(** * cngo: an in-memory key-value store backed by a transaction log

    A shallow embedding of the Go packages [store] and [logger] of
    rhardin/cngo and of the replay loop of [initTransactionLogger], with
    the properties of the store, of the log writer and of log replay.

    The repository holds two revisions of the file transaction logger:
    - [Logger]: package [logger] with the WaitGroup ([ReadEvents] ignores the
      result of [fmt.Sscanf] and url-unescapes the value; the worker of
      [Run] keeps going after a failed write);
    - [LoggerV1]: the earlier revision ([ReadEvents] checks the result of
      [fmt.Sscanf]; the worker of [Run] returns after a failed write).
    Both are embedded, each from its own source text. *)

From Stdlib Require Import NArith ZArith Ascii String List Lia.
From Stdlib Require Import DecimalString DecimalPos DecimalN.
From stdpp Require Import base gmap strings list.

Local Open Scope N_scope.

(** ** Package store *)

Module Store.

(** [type KVS struct { sync.RWMutex; M map[string]string }].  The lock
    only serialises the callers; a call is modelled as one atomic step on
    the map. *)
Record KVS := mkKVS { M : gmap string string }.

(** [errors.New("no such key")]: the only error value of the package. *)
Inductive error := ErrorNoSuchKey.

Definition empty : KVS := mkKVS ∅.

(** [func (s *KVS) Get(key string) (string, error)]: the result and the
    store after the call. *)
Definition Get (key : string) (s : KVS) : (string * option error) * KVS :=
  match M s !! key with
  | Some value => ((value, None), s)
  | None => ((""%string, Some ErrorNoSuchKey), s)
  end.

(** [func (s *KVS) Put(key, value string) error] *)
Definition Put (key value : string) (s : KVS) : option error * KVS :=
  (None, mkKVS (<[key := value]> (M s))).

(** [func (s *KVS) Delete(key string) error] *)
Definition Delete (key : string) (s : KVS) : option error * KVS :=
  (None, mkKVS (delete key (M s))).

End Store.

(** A client operation on the store, and a history of them. *)
Inductive op :=
| OpPut (key value : string)
| OpDelete (key : string).

(** The key an operation names. *)
Definition op_key (o : op) : string :=
  match o with OpPut k _ => k | OpDelete k => k end.

(** The store after the call of [Put] or [Delete] for an operation, and
    after a history of them. *)
Definition apply_op (s : Store.KVS) (o : op) : Store.KVS :=
  match o with
  | OpPut k v => snd (Store.Put k v s)
  | OpDelete k => snd (Store.Delete k s)
  end.

Definition apply_ops (s : Store.KVS) (os : list op) : Store.KVS :=
  fold_left apply_op os s.

(** The last operation of a history that names [k], if any. *)
Fixpoint last_mutation (k : string) (os : list op) : option op :=
  match os with
  | [] => None
  | o :: rest =>
    match last_mutation k rest with
    | Some o' => Some o'
    | None => if decide (op_key o = k) then Some o else None
    end
  end.

(** ** The Go standard library, as far as the logger calls it

    [unicode/utf8], [fmt.Sscanf] and [fmt.Fprintf] on the one format the
    logger uses, [bufio.Scanner] with its default line splitter, and
    [net/url.QueryUnescape].  A Go string is a sequence of bytes: [string]. *)

Module Go.

(** The byte with the number [n], and the strings "\t" and "\n". *)
Definition chr (n : N) : ascii := ascii_of_N n.
Definition TAB : string := String (chr 9) EmptyString.
Definition LF : string := String (chr 10) EmptyString.

(** *** unicode/utf8 *)

Abbreviation rune := N.
Definition RuneError : rune := 65533.
Definition MaxRune : rune := 1114111.

(** The table [first] with [acceptRanges]: for a leading byte, the length
    of the encoding and the range of the second byte ([None]: the byte
    starts no multi-byte encoding). *)
Definition first (p0 : N) : option (N * N * N) :=
  if (194 <=? p0) && (p0 <=? 223) then Some (2, 128, 191)
  else if p0 =? 224 then Some (3, 160, 191)
  else if (225 <=? p0) && (p0 <=? 236) then Some (3, 128, 191)
  else if p0 =? 237 then Some (3, 128, 159)
  else if (238 <=? p0) && (p0 <=? 239) then Some (3, 128, 191)
  else if p0 =? 240 then Some (4, 144, 191)
  else if (241 <=? p0) && (p0 <=? 243) then Some (4, 128, 191)
  else if p0 =? 244 then Some (4, 128, 143)
  else None.

Definition outside (lo hi b : N) : bool := (b <? lo) || (hi <? b).

(** [utf8.DecodeRune] on a non-empty input [String a0 r0]: the rune and
    its width in bytes; an invalid or short encoding is [RuneError] of
    width 1. *)
Definition DecodeRune (a0 : ascii) (r0 : string) : rune * nat :=
  let p0 := N_of_ascii a0 in
  if p0 <? 128 then (p0, 1%nat)
  else
    match first p0, r0 with
    | Some (sz, lo, hi), String a1 r1 =>
      let b1 := N_of_ascii a1 in
      if outside lo hi b1 then (RuneError, 1%nat)
      else if sz =? 2 then
        (N.lor (N.shiftl (N.land p0 31) 6) (N.land b1 63), 2%nat)
      else
        match r1 with
        | String a2 r2 =>
          let b2 := N_of_ascii a2 in
          if outside 128 191 b2 then (RuneError, 1%nat)
          else if sz =? 3 then
            (N.lor (N.shiftl (N.land p0 15) 12)
               (N.lor (N.shiftl (N.land b1 63) 6) (N.land b2 63)), 3%nat)
          else
            match r2 with
            | String a3 _ =>
              let b3 := N_of_ascii a3 in
              if outside 128 191 b3 then (RuneError, 1%nat)
              else
                (N.lor (N.shiftl (N.land p0 7) 18)
                   (N.lor (N.shiftl (N.land b1 63) 12)
                      (N.lor (N.shiftl (N.land b2 63) 6) (N.land b3 63))),
                 4%nat)
            | EmptyString => (RuneError, 1%nat)
            end
        | EmptyString => (RuneError, 1%nat)
        end
    | _, _ => (RuneError, 1%nat)
    end.

(** The runes a reader gets from [s] by [ReadRune] until the end of input;
    [skip] counts the bytes of the current rune still to pass over. *)
Fixpoint runes_at (s : string) (skip : nat) : list rune :=
  match s with
  | EmptyString => []
  | String a r =>
    match skip with
    | S k => runes_at r k
    | O => let '(c, w) := DecodeRune a r in c :: runes_at r (w - 1)
    end
  end.

Definition runes (s : string) : list rune := runes_at s 0.

Definition byte1 (n : N) : string := String (chr n) EmptyString.

(** [utf8.AppendRune] *)
Definition AppendRune (r : rune) : string :=
  let cb x := N.lor 128 (N.land x 63) in
  if r <=? 127 then byte1 r
  else if r <=? 2047 then
    byte1 (N.lor 192 (N.shiftr r 6)) +:+ byte1 (cb r)
  else if (MaxRune <? r) || ((55296 <=? r) && (r <=? 57343)) then
    byte1 239 +:+ byte1 191 +:+ byte1 189
  else if r <=? 65535 then
    byte1 (N.lor 224 (N.shiftr r 12)) +:+ byte1 (cb (N.shiftr r 6))
      +:+ byte1 (cb r)
  else
    byte1 (N.lor 240 (N.shiftr r 18)) +:+ byte1 (cb (N.shiftr r 12))
      +:+ byte1 (cb (N.shiftr r 6)) +:+ byte1 (cb r).

(** What [buffer.writeRune] has written after the runes [rs]. *)
Definition bytes_of_runes (rs : list rune) : string :=
  fold_right (fun r acc => AppendRune r +:+ acc) EmptyString rs.

(** *** fmt: scanning *)

(** The table [space] of package fmt. *)
Definition space : list (N * N) :=
  [(9, 13); (32, 32); (133, 133); (160, 160); (5760, 5760);
   (8192, 8202); (8232, 8233); (8239, 8239); (8287, 8287); (12288, 12288)].

Fixpoint in_ranges (rx : N) (t : list (N * N)) : bool :=
  match t with
  | [] => false
  | (lo, hi) :: t' =>
    if rx <? lo then false
    else if rx <=? hi then true
    else in_ranges rx t'
  end.

Definition isSpace (r : rune) : bool :=
  if 65536 <=? r then false else in_ranges r space.

Definition isNewline (r : rune) : bool := r =? 10.

Inductive scan_error :=
| ErrEOF                  (* the input ended where a value was expected *)
| ErrUnexpectedNewline    (* "unexpected newline" *)
| ErrExpectedInteger      (* "expected integer" *)
| ErrRange                (* strconv.ParseUint: value out of range *)
| ErrOverflow             (* "unsigned integer overflow on token" *)
| ErrExpectedSpace        (* "expected space in input to match format" *)
| ErrNewlineInInput.      (* "newline in input does not match format" *)

(** [ss.SkipSpace] with [nlIsSpace = false], on the runes still to
    read.  (A carriage return is a space, so the look-ahead for "\r\n"
    changes nothing here.) *)
Fixpoint SkipSpace (inp : list rune) : scan_error + list rune :=
  match inp with
  | [] => inr []
  | r :: rest =>
    if isNewline r then inl ErrUnexpectedNewline
    else if isSpace r then SkipSpace rest
    else inr inp
  end.

(** The loop [for isSpace(inputc) && inputc != '\n'] of [advance]. *)
Fixpoint dropSpaces (inp : list rune) : list rune :=
  match inp with
  | [] => []
  | r :: rest =>
    if isSpace r && negb (isNewline r) then dropSpaces rest else inp
  end.

(** [ss.advance] on a run of spaces of the format that holds no
    newline and follows none (the tab between two verbs): it needs a space
    or the end of the input, and takes every space up to a newline. *)
Definition advanceSpace (inp : list rune) : scan_error + list rune :=
  match inp with
  | [] => inr []
  | r :: _ =>
    if negb (isSpace r) then inl ErrExpectedSpace
    else if isNewline r then inl ErrNewlineInInput
    else inr (dropSpaces inp)
  end.

Definition isDigit (r : rune) : bool := (48 <=? r) && (r <=? 57).

(** The longest prefix accepted by [p], and the rest. *)
Fixpoint span (p : rune → bool) (inp : list rune) : list rune * list rune :=
  match inp with
  | [] => ([], [])
  | r :: rest =>
    if p r then let '(tok, inp') := span p rest in (r :: tok, inp')
    else ([], inp)
  end.

(** The value of a string of decimal digits, most significant first. *)
Definition decimal_value (tok : list rune) : N :=
  fold_left (fun acc d => 10 * acc + (d - 48)) tok 0.

(** [ss.scanUint(verb = 'd', bitSize)]: [scanNumber] collects the
    digits, [strconv.ParseUint(tok, 10, 64)] converts them, and the result
    must fit [bitSize] bits. *)
Definition scanUint (bitSize : N) (inp : list rune)
  : scan_error + (N * list rune) :=
  match SkipSpace inp with
  | inl err => inl err
  | inr [] => inl ErrEOF
  | inr inp1 =>
    match span isDigit inp1 with
    | ([], _) => inl ErrExpectedInteger
    | (tok, rest) =>
      let i := decimal_value tok in
      if 2 ^ 64 <=? i then inl ErrRange
      else if i mod 2 ^ bitSize =? i then inr (i, rest)
      else inl ErrOverflow
    end
  end.

(** [ss.convertString(verb = 's')]: the next word, [token(true,
    notSpace)]. *)
Definition convertString (inp : list rune)
  : scan_error + (string * list rune) :=
  match SkipSpace inp with
  | inl err => inl err
  | inr [] => inl ErrEOF
  | inr inp1 =>
    match SkipSpace inp1 with
    | inl err => inl err
    | inr inp2 =>
      let '(tok, rest) := span (fun r => negb (isSpace r)) inp2 in
      inr (bytes_of_runes tok, rest)
    end
  end.

(** One verb of [doScanf]: [s.SkipSpace()] and then [s.scanOne]. *)
Definition verb {A} (scan : list rune → scan_error + (A * list rune))
    (inp : list rune) : scan_error + (A * list rune) :=
  match SkipSpace inp with
  | inl err => inl err
  | inr inp1 => scan inp1
  end.

(** *** fmt: printing *)

(** [%d] of an unsigned integer. *)
Definition formatUint (n : N) : string :=
  NilZero.string_of_uint (N.to_uint n).

(** *** net/url *)

Definition ishex (c : N) : bool :=
  ((48 <=? c) && (c <=? 57)) || ((97 <=? c) && (c <=? 102))
  || ((65 <=? c) && (c <=? 70)).

Definition unhex (c : N) : N :=
  if (48 <=? c) && (c <=? 57) then c - 48
  else if (97 <=? c) && (c <=? 102) then c - 97 + 10
  else if (65 <=? c) && (c <=? 70) then c - 65 + 10
  else 0.

(** [url.QueryUnescape]: [None] is an [EscapeError]. *)
Fixpoint QueryUnescape (s : string) : option string :=
  match s with
  | EmptyString => Some EmptyString
  | String c r =>
    if N_of_ascii c =? 37 then
      match r with
      | String h1 (String h2 r') =>
        if ishex (N_of_ascii h1) && ishex (N_of_ascii h2) then
          String (chr (N.lor (N.shiftl (unhex (N_of_ascii h1)) 4)
                        (unhex (N_of_ascii h2))))
            <$> QueryUnescape r'
        else None
      | _ => None
      end
    else if N_of_ascii c =? 43 then String (chr 32) <$> QueryUnescape r
    else String c <$> QueryUnescape r
  end.

(** *** bufio *)

Definition MaxScanTokenSize : N := 65536.

(** [dropCR]: a line loses one trailing carriage return. *)
Fixpoint dropCR (line : string) : string :=
  match line with
  | EmptyString => EmptyString
  | String c EmptyString =>
    if N_of_ascii c =? 13 then EmptyString else line
  | String c r => String c (dropCR r)
  end.

(** The input cut after every newline, the newline removed; a last line
    without a newline counts when it is not empty. [cur] holds the bytes
    of the current line, last byte first. *)
Fixpoint rawLines (data : string) (cur : list ascii) : list string :=
  match data with
  | EmptyString =>
    match cur with
    | [] => []
    | _ => [string_of_list_ascii (rev cur)]
    end
  | String c r =>
    if N_of_ascii c =? 10 then
      string_of_list_ascii (rev cur) :: rawLines r []
    else rawLines r (c :: cur)
  end.

(** The tokens of a [bufio.Scanner] with [ScanLines] over a buffer of
    [MaxScanTokenSize] bytes: a line must leave room for one more byte in
    the buffer, else the scanner stops with [ErrTooLong]. *)
Fixpoint scanTokens (raw : list string) : list string * bool :=
  match raw with
  | [] => ([], false)
  | line :: rest =>
    if MaxScanTokenSize <=? N.of_nat (String.length line) then ([], true)
    else let '(toks, tooLong) := scanTokens rest in
         (dropCR line :: toks, tooLong)
  end.

(** All the lines [scanner.Scan()] delivers from a file read without an
    I/O error, and whether [scanner.Err()] is [ErrTooLong] at the end. *)
Definition ScanLines (data : string) : list string * bool :=
  scanTokens (rawLines data []).

End Go.

(** ** Package logger: what the two revisions share *)

(** [type Event struct]: [Sequence] is a uint64 and [EventType] a byte. *)
Record Event := mkEvent {
  Sequence : N;
  EventType : N;
  Key : string;
  Value : string
}.

(** [const ( _ = iota; EventDelete EventType = iota; EventPut )] *)
Definition EventDelete : N := 1.
Definition EventPut : N := 2.

(** [Event{}], the zero value. *)
Definition zeroEvent : Event := mkEvent 0 0 EmptyString EmptyString.

Definition setSequence (n : N) (e : Event) : Event :=
  mkEvent n (EventType e) (Key e) (Value e).
Definition setEventType (t : N) (e : Event) : Event :=
  mkEvent (Sequence e) t (Key e) (Value e).
Definition setKey (k : string) (e : Event) : Event :=
  mkEvent (Sequence e) (EventType e) k (Value e).
Definition setValue (v : string) (e : Event) : Event :=
  mkEvent (Sequence e) (EventType e) (Key e) v.

(** The errors the logger sends on its error channels. *)
Inductive error :=
| ErrWrite            (* Run: the error of fmt.Fprintf *)
| ErrParse (err : Go.scan_error)   (* "input parse error: %w" *)
| ErrOutOfSequence    (* "transaction numbers out of sequence" *)
| ErrDecode           (* "vaalue decoding failure: %w" *)
| ErrReadFailure.     (* "transaction log read failure: %w" *)

(** [x ← m; k]: go on with [k] unless [m] failed. *)
Definition bindE {E A B} (m : E + A) (k : A → E + B) : E + B :=
  match m with
  | inl err => inl err
  | inr a => k a
  end.

(** [fmt.Sscanf(line, "%d\t%d\t%s\t%s", &e.Sequence, &e.EventType, &e.Key,
    &e.Value)]: the event after the call and the error, if any.  A field is
    stored as soon as its verb has been scanned; after an error the later
    fields keep what they held.  What follows the fourth word on the line
    is not looked at. *)
Definition Sscanf (line : string) (e : Event) : Event * option Go.scan_error :=
  match Go.verb (Go.scanUint 64) (Go.runes line) with
  | inl err => (e, Some err)
  | inr (seq, i1) =>
    let e1 := setSequence seq e in
    match bindE (Go.advanceSpace i1) (Go.verb (Go.scanUint 8)) with
    | inl err => (e1, Some err)
    | inr (ty, i2) =>
      let e2 := setEventType ty e1 in
      match bindE (Go.advanceSpace i2) (Go.verb Go.convertString) with
      | inl err => (e2, Some err)
      | inr (k, i3) =>
        let e3 := setKey k e2 in
        match bindE (Go.advanceSpace i3) (Go.verb Go.convertString) with
        | inl err => (e3, Some err)
        | inr (v, _) => (setValue v e3, None)
        end
      end
    end
  end.

(** The text of [fmt.Fprintf(l.file, "%d\t%d\t%s\t%s\n", seq, e.EventType,
    e.Key, e.Value)]. *)
Definition record_text (seq : N) (e : Event) : string :=
  Go.formatUint seq +:+ Go.TAB +:+ Go.formatUint (EventType e) +:+ Go.TAB
    +:+ Key e +:+ Go.TAB +:+ Value e +:+ Go.LF.

(** What a write to the file comes to: all of the text, or an error after
    some leading bytes of it. *)
Inductive write_result :=
| WriteOk
| WriteFail (written : nat).

(** The file after a write of [text] that came to [w]. *)
Definition write_file (file text : string) (w : write_result) : string :=
  match w with
  | WriteOk => file +:+ text
  | WriteFail n => file +:+ String.substring 0 n text
  end.

Definition failed (w : write_result) : bool :=
  match w with WriteOk => false | WriteFail _ => true end.

(** One pass of the worker of [Run] through its loop, as observed: the
    sequence number it took, the event, and what the write came to. *)
Record attempt := mkAttempt {
  a_seq : N;
  a_event : Event;
  a_result : write_result
}.

(** Where the goroutine started by [Run] stands. *)
Inductive worker_pc :=
| AtRange               (* at [for e := range events] *)
| AtSend                (* at [errors <- ...], the write has failed *)
| Returned.             (* the goroutine has ended *)

(** What the parties of the armed phase do, one step each: a handler calls
    [WritePut] or [WriteDelete]; the worker takes an event and writes (the
    write comes to [w]); the worker sends the error of a failed write;
    somebody receives from [Err()]. *)
Inductive action :=
| Client (o : op)
| Write (w : write_result)
| SendErr
| RecvErr.

(** The loop of [initTransactionLogger] on one received event:
    [switch e.EventType { case EventDelete: ...; case EventPut: ... }]. *)
Definition applyEvent (kvs : Store.KVS) (e : Event) : Store.KVS :=
  if EventType e =? EventDelete then snd (Store.Delete (Key e) kvs)
  else if EventType e =? EventPut then snd (Store.Put (Key e) (Value e) kvs)
  else kvs.

(** The store after the loop has received the events [evs] in this order. *)
Definition applyEvents (kvs : Store.KVS) (evs : list Event) : Store.KVS :=
  fold_left applyEvent evs kvs.

(** ** Package logger, the revision with the WaitGroup *)

Module Logger.

(** [type FileTransactionLogger struct]: the channels by what they hold,
    oldest first, and the file by its contents. [wg] is the counter of the
    WaitGroup. *)
Record FileTransactionLogger := mkLogger {
  events : list Event;     (* [make(chan Event, 16)] *)
  errors : list error;     (* [make(chan error, 1)] *)
  lastSequence : N;        (* uint64 *)
  file : string;
  wg : Z
}.

Definition eventsCap : nat := 16.
Definition errorsCap : nat := 1.

(** [MakeFileTransactionLogger(filename)], the file opened without an
    error: [contents] is what the file holds (nothing when it is new). *)
Definition MakeFileTransactionLogger (contents : string)
  : FileTransactionLogger :=
  mkLogger [] [] 0 contents 0%Z.

(** The logger and the goroutine of [Run], with the passes the goroutine
    has made through its loop so far. *)
Record armed := mkArmed {
  log : FileTransactionLogger;
  pc : worker_pc;
  attempts : list attempt
}.

(** [Run]: two new channels, and the goroutine at the head of its loop. *)
Definition Run (l : FileTransactionLogger) : armed :=
  mkArmed (mkLogger [] [] (lastSequence l) (file l) (wg l)) AtRange [].

(** [l.wg.Add(1); l.events <- e]: [None] when the channel is full and the
    sender has to wait. *)
Definition sendEvent (e : Event) (l : FileTransactionLogger)
  : option FileTransactionLogger :=
  if decide (length (events l) < eventsCap)%nat then
    Some (mkLogger (events l ++ [e]) (errors l) (lastSequence l) (file l)
            (wg l + 1))
  else None.

(** [WritePut(key, value)] *)
Definition WritePut (key value : string) (l : FileTransactionLogger)
  : option FileTransactionLogger :=
  sendEvent (mkEvent 0 EventPut key value) l.

(** [WriteDelete(key)] *)
Definition WriteDelete (key : string) (l : FileTransactionLogger)
  : option FileTransactionLogger :=
  sendEvent (mkEvent 0 EventDelete key EmptyString) l.

(** [<-l.Err()]: [None] when the channel is empty. *)
Definition recvError (l : FileTransactionLogger)
  : option (error * FileTransactionLogger) :=
  match errors l with
  | [] => None
  | err :: rest =>
    Some (err, mkLogger (events l) rest (lastSequence l) (file l) (wg l))
  end.

(** The goroutine of [Run] at the head of its loop: it needs an event,
    takes the next sequence number and writes; the write comes to [w].
    After a write without an error [l.wg.Done()] ends the pass. [None]
    when the goroutine cannot take this step. *)
Definition writeStep (w : write_result) (s : armed) : option armed :=
  let l := log s in
  match pc s, events l with
  | AtRange, e :: q =>
    let seq := (lastSequence l + 1) mod 2 ^ 64 in
    let f := write_file (file l) (record_text seq e) w in
    let att := attempts s ++ [mkAttempt seq e w] in
    if failed w then
      Some (mkArmed (mkLogger q (errors l) seq f (wg l)) AtSend att)
    else
      Some (mkArmed (mkLogger q (errors l) seq f (wg l - 1)) AtRange att)
  | _, _ => None
  end.

(** The goroutine of [Run] after a failed write: it needs room in
    [errors], sends the error, ends the pass with [l.wg.Done()] and goes
    back to the head of the loop. *)
Definition sendStep (s : armed) : option armed :=
  let l := log s in
  match pc s with
  | AtSend =>
    if decide (length (errors l) < errorsCap)%nat then
      Some (mkArmed
              (mkLogger (events l) (errors l ++ [ErrWrite]) (lastSequence l)
                 (file l) (wg l - 1))
              AtRange (attempts s))
    else None
  | _ => None
  end.

(** One step of the armed logger. *)
Definition step (a : action) (s : armed) : option armed :=
  match a with
  | Client (OpPut k v) =>
    l ← WritePut k v (log s); Some (mkArmed l (pc s) (attempts s))
  | Client (OpDelete k) =>
    l ← WriteDelete k (log s); Some (mkArmed l (pc s) (attempts s))
  | Write w => writeStep w s
  | SendErr => sendStep s
  | RecvErr =>
    r ← recvError (log s); Some (mkArmed (snd r) (pc s) (attempts s))
  end.

(** A schedule: the steps taken, in order; [None] when one of them could
    not be taken where it stands. *)
Fixpoint run (sched : list action) (s : armed) : option armed :=
  match sched with
  | [] => Some s
  | a :: sched' => s' ← step a s; run sched' s'
  end.

(** The loop of the goroutine of [ReadEvents] over the lines the scanner
    delivers: the events sent on [outEvent], the error sent on [outError],
    and [l.lastSequence] and the variable [e] at the end.  The result of
    [fmt.Sscanf] is dropped. *)
Fixpoint readLoop (lines : list string) (lastSeq : N) (e : Event)
  : list Event * option error * N * Event :=
  match lines with
  | [] => ([], None, lastSeq, e)
  | line :: rest =>
    let e1 := fst (Sscanf line e) in
    if Sequence e1 <=? lastSeq then ([], Some ErrOutOfSequence, lastSeq, e1)
    else
      match Go.QueryUnescape (Value e1) with
      | None => ([], Some ErrDecode, lastSeq, e1)
      | Some uv =>
        let e2 := setValue uv e1 in
        let '(evs, err, ls, ef) := readLoop rest (Sequence e2) e2 in
        (e2 :: evs, err, ls, ef)
      end
  end.

(** [ReadEvents], its goroutine run to the end with every event received:
    the events, the error if one was sent, and the logger afterwards. *)
Definition ReadEvents (l : FileTransactionLogger)
  : list Event * option error * FileTransactionLogger :=
  let '(lines, tooLong) := Go.ScanLines (file l) in
  let '(evs, err, ls, _) := readLoop lines (lastSequence l) zeroEvent in
  let err' :=
    match err with
    | Some _ => err
    | None => if tooLong then Some ErrReadFailure else None
    end in
  (evs, err', mkLogger (events l) (errors l) ls (file l) (wg l)).

(** The passes the WaitGroup waits for: one for every event in the channel
    and one for a failed write whose error is not sent yet. *)
Definition pending (s : armed) : Z :=
  Z.of_nat (length (events (log s)))
  + match pc s with AtSend => 1 | _ => 0 end.

(** The armed logger on a new, empty file. *)
Definition fresh : armed := Run (MakeFileTransactionLogger EmptyString).

(** Every operation is handed to the logger and written, in turn, without
    a failing write. *)
Definition writeSchedule (os : list op) : list action :=
  flat_map (fun o => [Client o; Write WriteOk]) os.

(** The file after the operations [os] went through the write path of a
    logger on a new file. *)
Definition logged (os : list op) : option string :=
  s ← run (writeSchedule os) fresh; Some (file (log s)).

(** Start-up on a file that holds [contents]: the store after the loop of
    [initTransactionLogger] has applied what [ReadEvents] sent, and the
    error [ReadEvents] sent, if any. *)
Definition replay (contents : string) : Store.KVS * option error :=
  let '(evs, err, _) := ReadEvents (MakeFileTransactionLogger contents) in
  (applyEvents Store.empty evs, err).

(** [Wait]: [l.wg.Wait()] returns when the counter of the WaitGroup is
    zero; [None] while the caller has to wait.  [Close] starts with the
    same wait. *)
Definition Wait (s : armed) : option armed :=
  if decide (wg (log s) = 0)%Z then Some s else None.

(** [initTransactionLogger] without its globals, on a store [kvs] and a
    file that holds [contents]: [ReadEvents], the loop that applies what it
    sends, and [Run].  The store, the error [ReadEvents] sent, if any, and
    the armed logger. *)
Definition startup (kvs : Store.KVS) (contents : string)
  : Store.KVS * option error * armed :=
  let '(evs, err, l) := ReadEvents (MakeFileTransactionLogger contents) in
  (applyEvents kvs evs, err, Run l).

End Logger.

(** ** Package logger, the earlier revision *)

Module LoggerV1.

(** [type FileTransactionLogger struct]: the channels by what they hold,
    oldest first, and the file by its contents. *)
Record FileTransactionLogger := mkLogger {
  events : list Event;     (* [make(chan Event, 16)] *)
  errors : list error;     (* [make(chan error, 1)] *)
  lastSequence : N;        (* uint64 *)
  file : string
}.

Definition eventsCap : nat := 16.
Definition errorsCap : nat := 1.

(** [MakeFileTransactionLogger(filename)], the file opened without an
    error: [contents] is what the file holds (nothing when it is new). *)
Definition MakeFileTransactionLogger (contents : string)
  : FileTransactionLogger :=
  mkLogger [] [] 0 contents.

(** The logger and the goroutine of [Run], with the passes the goroutine
    has made through its loop so far. *)
Record armed := mkArmed {
  log : FileTransactionLogger;
  pc : worker_pc;
  attempts : list attempt
}.

(** [Run]: two new channels, and the goroutine at the head of its loop. *)
Definition Run (l : FileTransactionLogger) : armed :=
  mkArmed (mkLogger [] [] (lastSequence l) (file l)) AtRange [].

(** [l.events <- e]: [None] when the channel is full and the sender has
    to wait. *)
Definition sendEvent (e : Event) (l : FileTransactionLogger)
  : option FileTransactionLogger :=
  if decide (length (events l) < eventsCap)%nat then
    Some (mkLogger (events l ++ [e]) (errors l) (lastSequence l) (file l))
  else None.

(** [WritePut(key, value)] *)
Definition WritePut (key value : string) (l : FileTransactionLogger)
  : option FileTransactionLogger :=
  sendEvent (mkEvent 0 EventPut key value) l.

(** [WriteDelete(key)] *)
Definition WriteDelete (key : string) (l : FileTransactionLogger)
  : option FileTransactionLogger :=
  sendEvent (mkEvent 0 EventDelete key EmptyString) l.

(** [<-l.Err()]: [None] when the channel is empty. *)
Definition recvError (l : FileTransactionLogger)
  : option (error * FileTransactionLogger) :=
  match errors l with
  | [] => None
  | err :: rest =>
    Some (err, mkLogger (events l) rest (lastSequence l) (file l))
  end.

(** The goroutine of [Run] at the head of its loop: it needs an event,
    takes the next sequence number and writes; the write comes to [w].
    [None] when the goroutine cannot take this step. *)
Definition writeStep (w : write_result) (s : armed) : option armed :=
  let l := log s in
  match pc s, events l with
  | AtRange, e :: q =>
    let seq := (lastSequence l + 1) mod 2 ^ 64 in
    let f := write_file (file l) (record_text seq e) w in
    let att := attempts s ++ [mkAttempt seq e w] in
    Some (mkArmed (mkLogger q (errors l) seq f)
            (if failed w then AtSend else AtRange) att)
  | _, _ => None
  end.

(** The goroutine of [Run] after a failed write: it sends the error, for
    which it needs room in [errors], and returns. *)
Definition sendStep (s : armed) : option armed :=
  let l := log s in
  match pc s with
  | AtSend =>
    if decide (length (errors l) < errorsCap)%nat then
      Some (mkArmed
              (mkLogger (events l) (errors l ++ [ErrWrite]) (lastSequence l)
                 (file l))
              Returned (attempts s))
    else None
  | _ => None
  end.

(** One step of the armed logger. *)
Definition step (a : action) (s : armed) : option armed :=
  match a with
  | Client (OpPut k v) =>
    l ← WritePut k v (log s); Some (mkArmed l (pc s) (attempts s))
  | Client (OpDelete k) =>
    l ← WriteDelete k (log s); Some (mkArmed l (pc s) (attempts s))
  | Write w => writeStep w s
  | SendErr => sendStep s
  | RecvErr =>
    r ← recvError (log s); Some (mkArmed (snd r) (pc s) (attempts s))
  end.

(** A schedule: the steps taken, in order; [None] when one of them could
    not be taken where it stands. *)
Fixpoint run (sched : list action) (s : armed) : option armed :=
  match sched with
  | [] => Some s
  | a :: sched' => s' ← step a s; run sched' s'
  end.

(** The loop of the goroutine of [ReadEvents] over the lines the scanner
    delivers: the events sent on [outEvent], the error sent on [outError],
    and [l.lastSequence] and the variable [e] at the end. *)
Fixpoint readLoop (lines : list string) (lastSeq : N) (e : Event)
  : list Event * option error * N * Event :=
  match lines with
  | [] => ([], None, lastSeq, e)
  | line :: rest =>
    match Sscanf line e with
    | (e1, Some err) => ([], Some (ErrParse err), lastSeq, e1)
    | (e1, None) =>
      if Sequence e1 <=? lastSeq then
        ([], Some ErrOutOfSequence, lastSeq, e1)
      else
        let '(evs, err, ls, ef) := readLoop rest (Sequence e1) e1 in
        (e1 :: evs, err, ls, ef)
    end
  end.

(** [ReadEvents], its goroutine run to the end with every event received:
    the events, the error if one was sent, and the logger afterwards. *)
Definition ReadEvents (l : FileTransactionLogger)
  : list Event * option error * FileTransactionLogger :=
  let '(lines, tooLong) := Go.ScanLines (file l) in
  let '(evs, err, ls, _) := readLoop lines (lastSequence l) zeroEvent in
  let err' :=
    match err with
    | Some _ => err
    | None => if tooLong then Some ErrReadFailure else None
    end in
  (evs, err', mkLogger (events l) (errors l) ls (file l)).

(** The armed logger on a new, empty file. *)
Definition fresh : armed := Run (MakeFileTransactionLogger EmptyString).

(** Every operation is handed to the logger and written, in turn, without
    a failing write. *)
Definition writeSchedule (os : list op) : list action :=
  flat_map (fun o => [Client o; Write WriteOk]) os.

(** The file after the operations [os] went through the write path of a
    logger on a new file. *)
Definition logged (os : list op) : option string :=
  s ← run (writeSchedule os) fresh; Some (file (log s)).

(** Start-up on a file that holds [contents]: the store after the loop of
    [initTransactionLogger] has applied what [ReadEvents] sent, and the
    error [ReadEvents] sent, if any. *)
Definition replay (contents : string) : Store.KVS * option error :=
  let '(evs, err, _) := ReadEvents (MakeFileTransactionLogger contents) in
  (applyEvents Store.empty evs, err).

(** [initTransactionLogger] without its globals, on a store [kvs] and a
    file that holds [contents]: [ReadEvents], the loop that applies what it
    sends, and [Run].  The store, the error [ReadEvents] sent, if any, and
    the armed logger. *)
Definition startup (kvs : Store.KVS) (contents : string)
  : Store.KVS * option error * armed :=
  let '(evs, err, l) := ReadEvents (MakeFileTransactionLogger contents) in
  (applyEvents kvs evs, err, Run l).

End LoggerV1.

(** ** The two revisions side by side *)

Inductive revision := WithWaitGroup | Earlier.

(** The loop of [ReadEvents] of a revision. *)
Definition readLoopOf (rev : revision)
  : list string → N → Event → list Event * option error * N * Event :=
  match rev with
  | WithWaitGroup => Logger.readLoop
  | Earlier => LoggerV1.readLoop
  end.

(** [ReadEvents] of a new logger on a file that holds [contents]: the events
    and the error it sends. *)
Definition readEvents (rev : revision) (contents : string)
  : list Event * option error :=
  match rev with
  | WithWaitGroup =>
    fst (Logger.ReadEvents (Logger.MakeFileTransactionLogger contents))
  | Earlier =>
    fst (LoggerV1.ReadEvents (LoggerV1.MakeFileTransactionLogger contents))
  end.

(** Start-up of a revision on a file that holds [contents]. *)
Definition replayOf (rev : revision) (contents : string)
  : Store.KVS * option error :=
  match rev with
  | WithWaitGroup => Logger.replay contents
  | Earlier => LoggerV1.replay contents
  end.

(** The fields the loop of [ReadEvents] goes on with after [fmt.Sscanf] on
    [line], the variable [e] holding [e0] before: the earlier revision
    goes on only when the scan has no error. *)
Definition scans (rev : revision) (line : string) (e0 r : Event) : Prop :=
  match rev with
  | WithWaitGroup => fst (Sscanf line e0) = r
  | Earlier => Sscanf line e0 = (r, None)
  end.

(** The event sent for a record with the fields [r]: the revision with the
    WaitGroup url-unescapes the value. *)
Definition decode (rev : revision) (r : Event) : option Event :=
  match rev with
  | WithWaitGroup => (λ uv, setValue uv r) <$> Go.QueryUnescape (Value r)
  | Earlier => Some r
  end.

(** What shows of an armed logger in either revision. *)
Record observed := mkObserved {
  o_events : list Event;
  o_errors : list error;
  o_lastSequence : N;
  o_file : string;
  o_pc : worker_pc;
  o_attempts : list attempt
}.

(** The armed logger of the revision with the WaitGroup, as observed. *)
Definition observe (s : Logger.armed) : observed :=
  mkObserved (Logger.events (Logger.log s)) (Logger.errors (Logger.log s))
    (Logger.lastSequence (Logger.log s)) (Logger.file (Logger.log s))
    (Logger.pc s) (Logger.attempts s).

(** The armed logger of the earlier revision, as observed. *)
Definition observeV1 (s : LoggerV1.armed) : observed :=
  mkObserved (LoggerV1.events (LoggerV1.log s))
    (LoggerV1.errors (LoggerV1.log s))
    (LoggerV1.lastSequence (LoggerV1.log s)) (LoggerV1.file (LoggerV1.log s))
    (LoggerV1.pc s) (LoggerV1.attempts s).

(** A schedule run on the logger armed after a replay that left
    [lastSequence] at [lastSeq] and the file holding [contents]. *)
Definition runFrom (rev : revision) (lastSeq : N) (contents : string)
    (sched : list action) : option observed :=
  match rev with
  | WithWaitGroup =>
    observe <$>
      Logger.run sched
        (Logger.Run (Logger.mkLogger [] [] lastSeq contents 0%Z))
  | Earlier =>
    observeV1 <$>
      LoggerV1.run sched
        (LoggerV1.Run (LoggerV1.mkLogger [] [] lastSeq contents))
  end.

(** The event [WritePut] or [WriteDelete] sends for an operation. *)
Definition intent (o : op) : Event :=
  match o with
  | OpPut k v => mkEvent 0 EventPut k v
  | OpDelete k => mkEvent 0 EventDelete k EmptyString
  end.

(** The events the handlers hand to the logger in the course of a
    schedule, in order. *)
Fixpoint intents (sched : list action) : list Event :=
  match sched with
  | [] => []
  | Client o :: sched' => intent o :: intents sched'
  | _ :: sched' => intents sched'
  end.

(** The file after the writes of the passes [atts], made in this order. *)
Definition written (file : string) (atts : list attempt) : string :=
  fold_left
    (λ f a, write_file f (record_text (a_seq a) (a_event a)) (a_result a))
    atts file.

(** The texts of the passes [atts], one after the other. *)
Definition texts (atts : list attempt) : string :=
  fold_right (λ a acc, record_text (a_seq a) (a_event a) +:+ acc)
    EmptyString atts.

(** Sequence numbers that go up from record to record, above [lastSeq]. *)
Fixpoint ascending (lastSeq : N) (recs : list Event) : Prop :=
  match recs with
  | [] => True
  | r :: recs' => lastSeq < Sequence r ∧ ascending (Sequence r) recs'
  end.

(** Each pass took the sequence number that comes after the one before
    it, and the first pass the one after [lastSeq]. *)
Fixpoint numbered (lastSeq : N) (atts : list attempt) : Prop :=
  match atts with
  | [] => True
  | a :: atts' =>
    a_seq a = (lastSeq + 1) mod 2 ^ 64 ∧ numbered (a_seq a) atts'
  end.

(** The sequence number of the last pass, [lastSeq] when there is none. *)
Definition last_seq (lastSeq : N) (atts : list attempt) : N :=
  match last atts with
  | Some a => a_seq a
  | None => lastSeq
  end.

(** From [o] to [o'], with the events [enq] handed to the logger on the
    way: the worker made the passes [new], one for each event it took from
    the channel, in the order the events were sent. *)
Definition follows (o o' : observed) (enq : list Event) (new : list attempt)
  : Prop :=
  o_attempts o' = o_attempts o ++ new
  ∧ map a_event new ++ o_events o' = o_events o ++ enq
  ∧ numbered (o_lastSequence o) new
  ∧ o_lastSequence o' = last_seq (o_lastSequence o) new
  ∧ o_file o' = written (o_file o) new.

(** The worker goes through its channel, the writes coming to [ws] in
    turn, and every error it sends is received from [Err()]. *)
Definition passes (ws : list write_result) : list action :=
  flat_map (λ w, if failed w then [Write w; SendErr; RecvErr] else [Write w])
    ws.

(** ** Words that go through the log as they are *)

(** The runes of a string of ASCII bytes. *)
Definition codes (s : string) : list N :=
  map N_of_ascii (list_ascii_of_string s).

(** Every byte of [s] passes the test [p]. *)
Fixpoint all_bytes (p : ascii → bool) (s : string) : bool :=
  match s with
  | EmptyString => true
  | String c r => p c && all_bytes p r
  end.

Definition ascii_byte (c : ascii) : bool := N_of_ascii c <? 128.

(** An ASCII byte that is no space for package fmt. *)
Definition plain_byte (c : ascii) : bool :=
  ascii_byte c && negb (Go.isSpace (N_of_ascii c)).

(** A plain byte that [url.QueryUnescape] leaves as it is: neither a
    percent sign nor a plus sign. *)
Definition literal_byte (c : ascii) : bool :=
  plain_byte c && negb (N_of_ascii c =? 37) && negb (N_of_ascii c =? 43).

(** A byte that is neither a newline nor a carriage return. *)
Definition tame_byte (c : ascii) : bool :=
  negb (N_of_ascii c =? 10) && negb (N_of_ascii c =? 13).

(** The digits of a decimal number, as runes. *)
Definition digit_string (d : Decimal.uint) : list N :=
  codes (NilEmpty.string_of_uint d).

(** The line of a record, without its newline. *)
Definition record_line (seq : N) (e : Event) : string :=
  Go.formatUint seq +:+ Go.TAB +:+ Go.formatUint (EventType e) +:+ Go.TAB
    +:+ Key e +:+ Go.TAB +:+ Value e.

(** The text the write path leaves in a new file for the operations [os],
    and its lines. *)
Fixpoint log_text (lastSeq : N) (os : list op) : string :=
  match os with
  | [] => EmptyString
  | o :: os' =>
    record_text ((lastSeq + 1) mod 2 ^ 64) (intent o)
      +:+ log_text ((lastSeq + 1) mod 2 ^ 64) os'
  end.

Fixpoint log_lines (lastSeq : N) (os : list op) : list string :=
  match os with
  | [] => []
  | o :: os' =>
    record_line ((lastSeq + 1) mod 2 ^ 64) (intent o)
      :: log_lines ((lastSeq + 1) mod 2 ^ 64) os'
  end.

(** An operation whose key and value are words that go through the log as
    they are. *)
Definition plain_op (o : op) : Prop :=
  match o with
  | OpPut k v =>
    k ≠ EmptyString ∧ all_bytes plain_byte k = true
    ∧ v ≠ EmptyString ∧ all_bytes literal_byte v = true
  | OpDelete k => k ≠ EmptyString ∧ all_bytes plain_byte k = true
  end.

(** A line that fits the buffer of the scanner. *)
Definition short_line (line : string) : Prop :=
  N.of_nat (String.length line) < Go.MaxScanTokenSize.

(** The operation is a put. *)
Definition is_put (o : op) : Prop :=
  match o with OpPut _ _ => True | OpDelete _ => False end.

(** The file after the operations [os] went through the write path of a
    revision. *)
Definition loggedOf (rev : revision) (os : list op) : option string :=
  match rev with
  | WithWaitGroup => Logger.logged os
  | Earlier => LoggerV1.logged os
  end.

(** ** Sample logs and schedules *)

(** A line of four fields. *)
Definition line4 (seq kind key value : string) : string :=
  seq +:+ Go.TAB +:+ kind +:+ Go.TAB +:+ key +:+ Go.TAB +:+ value.

(** A line that ends after the key, without the last tab. *)
Definition line3 (seq kind key : string) : string :=
  seq +:+ Go.TAB +:+ kind +:+ Go.TAB +:+ key.

(** The log "1\t2\tx\t42\n2\t1\tx\t\n": a put of x, then a delete of x. *)
Definition log_put_delete : string :=
  line4 "1" "2" "x" "42" +:+ Go.LF +:+ line4 "2" "1" "x" "" +:+ Go.LF.

(** A put of x with the number 1, then a put of y with the number 1
    again. *)
Definition log_repeated_number : string :=
  line4 "1" "2" "x" "42" +:+ Go.LF +:+ line4 "1" "2" "y" "7" +:+ Go.LF.

(** A put of x with the number 1, then a put of y with the number 3. *)
Definition log_with_gap : string :=
  line4 "1" "2" "x" "42" +:+ Go.LF +:+ line4 "3" "2" "y" "7" +:+ Go.LF.

(** A put of x with the number 1, then a delete of x with the number 3. *)
Definition log_gap_before_delete : string :=
  line4 "1" "2" "x" "42" +:+ Go.LF +:+ line4 "3" "1" "x" "" +:+ Go.LF.

(** A put of x, then a record of a put of y that ends after the key. *)
Definition log_missing_value : string :=
  line4 "1" "2" "x" "42" +:+ Go.LF +:+ line3 "2" "2" "y" +:+ Go.LF.

(** Three puts are handed to the logger; the writes for the first two
    fail, and nobody receives from [Err()]. *)
Definition sched_two_failures : list action :=
  [Client (OpPut "a" "1"); Client (OpPut "b" "2"); Client (OpPut "c" "3");
   Write (WriteFail 0); SendErr; Write (WriteFail 0)].

(** The revision with the WaitGroup with three puts in its channel. *)
Definition three_queued : Logger.armed :=
  Logger.mkArmed
    (Logger.mkLogger
       [intent (OpPut "a" "1"); intent (OpPut "b" "2"); intent (OpPut "c" "3")]
       [] 0 EmptyString 3%Z)
    AtRange [].

(** Three operations are handed to the logger and written in turn. *)
Definition sched_three_writes : list action :=
  [Client (OpPut "a" "1"); Write WriteOk; Client (OpDelete "a");
   Client (OpPut "b" "2"); Write WriteOk; Write WriteOk].

(** ** Start-up, restart and the handlers *)

(** A schedule run on the logger a start-up leaves armed on a file that
    holds [contents]. *)
Definition runAfter (rev : revision) (contents : string)
    (sched : list action) : option observed :=
  match rev with
  | WithWaitGroup =>
    observe <$> Logger.run sched (Logger.startup Store.empty contents).2
  | Earlier =>
    observeV1 <$> LoggerV1.run sched (LoggerV1.startup Store.empty contents).2
  end.

(** The file after a start-up on a file that holds [contents] and the
    operations [os] going through the write path. *)
Definition loggedAfter (rev : revision) (contents : string) (os : list op)
  : option string :=
  o_file <$>
    runAfter rev contents
      (match rev with
       | WithWaitGroup => Logger.writeSchedule os
       | Earlier => LoggerV1.writeSchedule os
       end).

(** The sequence number of the last of the events of a replay, 0 when
    there is none. *)
Definition last_sequence (evs : list Event) : N :=
  match last evs with
  | Some ev => Sequence ev
  | None => 0
  end.

(** A value of 65536 bytes. *)
Definition long_value : string :=
  string_of_list_ascii (repeat "a"%char (N.to_nat 65536)).

(** The channels hold no more than they have room for. *)
Definition within_capacity (o : observed) : Prop :=
  (length (o_events o) ≤ 16)%nat ∧ (length (o_errors o) ≤ 1)%nat.

(** A schedule in which nobody sends to the logger. *)
Definition no_client (a : action) : Prop :=
  match a with Client _ => False | _ => True end.

(** Package main with the globals [kvs] and [transact], and its handlers. *)
Module Server.

(** [var transact *FileTransactionLogger] and [var kvs = KVS{...}]: [None]
    is the nil pointer, [Some s] a logger on which [Run] was called. *)
Record globals := mkGlobals {
  kvs : Store.KVS;
  transact : option Logger.armed
}.

(** What a handler comes to: a reply with its status code and body, a
    panic, or a wait at the send to the logger. *)
Inductive outcome :=
| Replied (code : N) (body : string)
| Panicked
| Waiting.

Definition StatusOK : N := 200.
Definition StatusCreated : N := 201.
Definition StatusNotFound : N := 404.
Definition StatusInternalServerError : N := 500.

(** [err.Error()] of the error of the store. *)
Definition errorText (err : Store.error) : string :=
  match err with Store.ErrorNoSuchKey => "no such key" end.

(** [http.Error(w, msg, code)]: the message and a newline. *)
Definition httpError (msg : string) (code : N) : outcome :=
  Replied code (msg +:+ Go.LF).

(** [initTransactionLogger], the file opened without an error:
    [transact, err := MakeFileTransactionLogger(..)] declares a variable of
    the function, so the global [transact] stays as it was; the events
    [ReadEvents] sends are applied to the global [kvs],
    and [Run] is called on the logger of the function.  The result of the
    function is the error [ReadEvents] sent, unless the select of the loop
    finds the event channel closed before it takes that error ([lost]).
    With the result: the globals and the logger of the function. *)
Definition initTransactionLogger (lost : bool) (contents : string)
    (g : globals) : option error * globals * Logger.armed :=
  let '(k, err, s) := Logger.startup (kvs g) contents in
  (if lost then None else err, mkGlobals k (transact g), s).

(** [KeyValuePutHandler] up to [kvs.Put(key, string(val))]. *)
Definition putStore (key val : string) (g : globals)
  : option Store.error * globals :=
  let '(err, k) := Store.Put key val (kvs g) in
  (err, mkGlobals k (transact g)).

(** [KeyValuePutHandler] from [transact.lastSequence] on: a nil [transact]
    panics, [transact.WritePut] may have to wait, then the reply. *)
Definition putLog (key val : string) (g : globals) : outcome * globals :=
  match transact g with
  | None => (Panicked, g)
  | Some s =>
    match Logger.WritePut key val (Logger.log s) with
    | None => (Waiting, g)
    | Some l =>
      (Replied StatusCreated EmptyString,
       mkGlobals (kvs g)
         (Some (Logger.mkArmed l (Logger.pc s) (Logger.attempts s))))
    end
  end.

(** [KeyValuePutHandler]: [body] is what [io.ReadAll(r.Body)] returns, the
    bytes or the text of an error. *)
Definition KeyValuePutHandler (key : string) (body : string + string)
    (g : globals) : outcome * globals :=
  match body with
  | inr msg => (httpError msg StatusInternalServerError, g)
  | inl val =>
    match putStore key val g with
    | (Some err, g1) =>
      (httpError (errorText err) StatusInternalServerError, g1)
    | (None, g1) => putLog key val g1
    end
  end.

(** [KeyValueGetHandler] *)
Definition KeyValueGetHandler (key : string) (g : globals)
  : outcome * globals :=
  let '(val, err, k) := Store.Get key (kvs g) in
  let g1 := mkGlobals k (transact g) in
  match err with
  | Some Store.ErrorNoSuchKey =>
    (httpError (errorText Store.ErrorNoSuchKey) StatusNotFound, g1)
  | None => (Replied StatusOK val, g1)
  end.

(** [KeyValueDeleteHandler] *)
Definition KeyValueDeleteHandler (key : string) (g : globals)
  : outcome * globals :=
  let '(err, k) := Store.Delete key (kvs g) in
  let g1 := mkGlobals k (transact g) in
  match err with
  | Some Store.ErrorNoSuchKey =>
    (httpError (errorText Store.ErrorNoSuchKey) StatusNotFound, g1)
  | None =>
    match transact g1 with
    | None => (Panicked, g1)
    | Some s =>
      match Logger.WriteDelete key (Logger.log s) with
      | None => (Waiting, g1)
      | Some l =>
        (Replied StatusOK EmptyString,
         mkGlobals (kvs g1)
           (Some (Logger.mkArmed l (Logger.pc s) (Logger.attempts s))))
      end
    end
  end.

(** A request, as the router hands it to a handler. *)
Inductive request :=
| PUT (key : string) (body : string + string)
| GET (key : string)
| DELETE (key : string).

Definition handle (r : request) (g : globals) : outcome * globals :=
  match r with
  | PUT key body => KeyValuePutHandler key body g
  | GET key => KeyValueGetHandler key g
  | DELETE key => KeyValueDeleteHandler key g
  end.

(** One turn of the server: a request is handled from its first to its
    last line, or the worker of the logger or a receiver of its errors
    takes a step. *)
Inductive turn :=
| Handle (r : request)
| Step (a : action).

(** Requests handled one after the other, with steps of the logger in
    between: the outcomes and the globals at the end; [None] when a step of
    the logger cannot be taken where it stands. *)
Fixpoint serve (ts : list turn) (g : globals)
  : option (list outcome * globals) :=
  match ts with
  | [] => Some ([], g)
  | Handle r :: ts' =>
    let '(out, g1) := handle r g in
    r ← serve ts' g1; Some (out :: r.1, r.2)
  | Step (Client _) :: _ => None
  | Step a :: ts' =>
    s ← transact g;
    s1 ← Logger.step a s;
    serve ts' (mkGlobals (kvs g) (Some s1))
  end.

(** The operation a request asks for, if it asks for one and its body can
    be read. *)
Definition op_of (r : request) : option op :=
  match r with
  | PUT key (inl val) => Some (OpPut key val)
  | PUT _ (inr _) => None
  | GET _ => None
  | DELETE key => Some (OpDelete key)
  end.

(** The operations the requests of the turns ask for, in order. *)
Definition asked (ts : list turn) : list op :=
  omap (λ t, match t with Handle r => op_of r | Step _ => None end) ts.

End Server.

(** ** Properties of the store *)

Lemma apply_ops_snoc s os o :
  apply_ops s (os ++ [o]) = apply_op (apply_ops s os) o.
Proof. unfold apply_ops. by rewrite fold_left_app. Qed.

Lemma last_mutation_snoc k os o :
  last_mutation k (os ++ [o]) =
  if decide (op_key o = k) then Some o else last_mutation k os.
Proof.
  induction os as [|o' os IH]; simpl.
  - done.
  - rewrite IH. destruct (decide (op_key o = k)); [done|].
    by destruct (last_mutation k os).
Qed.

Lemma get_after_history k os :
  Store.M (apply_ops Store.empty os) !! k =
  match last_mutation k os with
  | Some (OpPut _ v) => Some v
  | _ => None
  end.
Proof.
  induction os as [|o os IH] using rev_ind.
  - done.
  - rewrite apply_ops_snoc, last_mutation_snoc.
    destruct o as [k' v|k']; simpl; destruct (decide (k' = k)) as [->|Hne].
    + by rewrite lookup_insert_eq.
    + by rewrite lookup_insert_ne.
    + by rewrite lookup_delete_eq.
    + by rewrite lookup_delete_ne.
Qed.

(** C6. For every history of puts and deletes applied to an empty store,
    [Get k] returns the value of the last [Put] of [k] when the last
    operation on [k] was a put, and the error [ErrorNoSuchKey] when it was
    a delete or when [k] was never put. *)
Theorem C6_get_last_written (os : list op) (k : string) :
  fst (Store.Get k (apply_ops Store.empty os)) =
  match last_mutation k os with
  | Some (OpPut _ v) => (v, None)
  | Some (OpDelete _) | None => (EmptyString, Some Store.ErrorNoSuchKey)
  end.
Proof.
  unfold Store.Get. rewrite get_after_history.
  by destruct (last_mutation k os) as [[? v|?]|].
Qed.

(** C10. In every store, for distinct keys [k] and [k'], [Put k v] and
    [Delete k] leave what is mapped at [k'] as it was, and [Get k] leaves
    the whole map as it was. *)
Theorem C10_frame (s : Store.KVS) (k k' v : string) :
  k ≠ k' →
  Store.M (snd (Store.Put k v s)) !! k' = Store.M s !! k'
  ∧ Store.M (snd (Store.Delete k s)) !! k' = Store.M s !! k'
  ∧ snd (Store.Get k s) = s.
Proof.
  intros Hne. split_and!; simpl.
  - by rewrite lookup_insert_ne.
  - by rewrite lookup_delete_ne.
  - unfold Store.Get. by destruct (Store.M s !! k).
Qed.

(** C10 on the keys a and b of the empty store. *)
Lemma C10_frame_witness :
  ("a" : string) ≠ "b"
  ∧ Store.M (snd (Store.Put "a" "1" Store.empty)) !! ("b" : string)
    = Store.M Store.empty !! ("b" : string).
Proof.
  assert (H : ("a" : string) ≠ "b") by discriminate.
  split; [exact H|].
  exact (proj1 (C10_frame Store.empty "a" "b" "1" H)).
Defined.

(** ** Replay: how the loop of [ReadEvents] goes through a log *)

Arguments Sscanf : simpl never.
Arguments Go.QueryUnescape : simpl never.
Arguments Go.ScanLines : simpl never.

(** One pass of the loop of [Logger.ReadEvents]. *)
Lemma readLoop_cons line rest lastSeq e :
  Logger.readLoop (line :: rest) lastSeq e =
  let e1 := fst (Sscanf line e) in
  if Sequence e1 <=? lastSeq then ([], Some ErrOutOfSequence, lastSeq, e1)
  else
    match Go.QueryUnescape (Value e1) with
    | None => ([], Some ErrDecode, lastSeq, e1)
    | Some uv =>
      let e2 := setValue uv e1 in
      let '(evs, err, ls, ef) := Logger.readLoop rest (Sequence e2) e2 in
      (e2 :: evs, err, ls, ef)
    end.
Proof. reflexivity. Qed.

(** One pass of the loop of [LoggerV1.ReadEvents]. *)
Lemma V1_readLoop_cons line rest lastSeq e :
  LoggerV1.readLoop (line :: rest) lastSeq e =
  match Sscanf line e with
  | (e1, Some err) => ([], Some (ErrParse err), lastSeq, e1)
  | (e1, None) =>
    if Sequence e1 <=? lastSeq then ([], Some ErrOutOfSequence, lastSeq, e1)
    else
      let '(evs, err, ls, ef) := LoggerV1.readLoop rest (Sequence e1) e1 in
      (e1 :: evs, err, ls, ef)
  end.
Proof. reflexivity. Qed.

(** Case analysis on the tests of one pass of a replay loop. *)
Ltac loop_pass H :=
  first [ rewrite readLoop_cons in H | rewrite V1_readLoop_cons in H ];
  cbv zeta in H;
  repeat match type of H with
  | context [Sscanf ?l ?e] =>
    let E := fresh "Escan" in destruct (Sscanf l e) as [? [?|]] eqn:E
  | context [N.leb ?a ?b] =>
    let E := fresh "Eseq" in destruct (N.leb a b) eqn:E
  | context [Go.QueryUnescape ?v] =>
    let E := fresh "Eurl" in destruct (Go.QueryUnescape v) eqn:E
  | context [Logger.readLoop ?r ?n ?e] =>
    let E := fresh "Hrest" in
    destruct (Logger.readLoop r n e) as [[[? ?] ?] ?] eqn:E
  | context [LoggerV1.readLoop ?r ?n ?e] =>
    let E := fresh "Hrest" in
    destruct (LoggerV1.readLoop r n e) as [[[? ?] ?] ?] eqn:E
  end;
  simpl fst in *; try discriminate H.

Section ReplayLoops.

Context (rest : list string).

(** A replay that went through [lines] without an error goes on with what
    follows, from the state it reached. *)
Lemma readLoop_app_ok lines lastSeq e evs ls ef :
  Logger.readLoop lines lastSeq e = (evs, None, ls, ef) →
  Logger.readLoop (lines ++ rest) lastSeq e =
    let '(evs', err, ls', ef') := Logger.readLoop rest ls ef in
    (evs ++ evs', err, ls', ef').
Proof.
  revert lastSeq e evs.
  induction lines as [|line pre IH]; intros lastSeq e evs H.
  - simpl in H. simplify_eq. simpl.
    by destruct (Logger.readLoop rest ls ef) as [[[??]?]?].
  - rewrite <- app_comm_cons, readLoop_cons. loop_pass H;
      cbv zeta; rewrite Eseq, Eurl; simplify_eq; rewrite (IH _ _ _ Hrest);
      by destruct (Logger.readLoop rest ls ef) as [[[??]?]?].
Qed.

(** A replay that stopped on an error within [lines] never looks at what
    follows. *)
Lemma readLoop_app_err lines lastSeq e evs err ls ef :
  Logger.readLoop lines lastSeq e = (evs, Some err, ls, ef) →
  Logger.readLoop (lines ++ rest) lastSeq e = (evs, Some err, ls, ef).
Proof.
  revert lastSeq e evs.
  induction lines as [|line pre IH]; intros lastSeq e evs H.
  - discriminate.
  - rewrite <- app_comm_cons, readLoop_cons. loop_pass H;
      cbv zeta; rewrite ?Eseq, ?Eurl; try done;
      simplify_eq; by rewrite (IH _ _ _ Hrest).
Qed.

Lemma V1_readLoop_app_ok lines lastSeq e evs ls ef :
  LoggerV1.readLoop lines lastSeq e = (evs, None, ls, ef) →
  LoggerV1.readLoop (lines ++ rest) lastSeq e =
    let '(evs', err, ls', ef') := LoggerV1.readLoop rest ls ef in
    (evs ++ evs', err, ls', ef').
Proof.
  revert lastSeq e evs.
  induction lines as [|line pre IH]; intros lastSeq e evs H.
  - simpl in H. simplify_eq. simpl.
    by destruct (LoggerV1.readLoop rest ls ef) as [[[??]?]?].
  - rewrite <- app_comm_cons, V1_readLoop_cons. loop_pass H.
    simplify_eq. rewrite (IH _ _ _ Hrest).
    by destruct (LoggerV1.readLoop rest ls ef) as [[[??]?]?].
Qed.

Lemma V1_readLoop_app_err lines lastSeq e evs err ls ef :
  LoggerV1.readLoop lines lastSeq e = (evs, Some err, ls, ef) →
  LoggerV1.readLoop (lines ++ rest) lastSeq e = (evs, Some err, ls, ef).
Proof.
  revert lastSeq e evs.
  induction lines as [|line pre IH]; intros lastSeq e evs H.
  - discriminate.
  - rewrite <- app_comm_cons, V1_readLoop_cons. loop_pass H;
      cbv beta iota; rewrite ?Eseq; try done.
    simplify_eq. by rewrite (IH _ _ _ Hrest).
Qed.

End ReplayLoops.

(** The last element of a list that is not empty does not depend on what
    stands for the last element of the empty list. *)
Lemma last_cons_default {A B} (f : A → B) (d' : B) (a : A) (l : list A) :
  match last l with Some x => f x | None => f a end =
  match last (a :: l) with Some x => f x | None => d' end.
Proof.
  revert a d'. induction l as [|b l IH]; intros a d'; [done|].
  change (last (a :: b :: l)) with (last (b :: l)).
  by rewrite <- (IH b d'), <- (IH b (f a)).
Qed.

(** After a replay without an error there is one event for every line, and
    [lastSequence] and the variable [e] are those of the last event. *)
Lemma readLoop_ok_last lines lastSeq e evs ls ef :
  Logger.readLoop lines lastSeq e = (evs, None, ls, ef) →
  length evs = length lines
  ∧ (ls, ef) = match last evs with
               | Some x => (Sequence x, x)
               | None => (lastSeq, e)
               end.
Proof.
  revert lastSeq e evs.
  induction lines as [|line pre IH]; intros lastSeq e evs H.
  - simpl in H. by simplify_eq.
  - loop_pass H; simplify_eq; destruct (IH _ _ _ Hrest) as [Hlen Hlast];
      (split; [simpl; by rewrite Hlen|]);
      rewrite Hlast;
      apply (last_cons_default (λ x, (Sequence x, x)) (lastSeq, e)).
Qed.

Lemma V1_readLoop_ok_last lines lastSeq e evs ls ef :
  LoggerV1.readLoop lines lastSeq e = (evs, None, ls, ef) →
  length evs = length lines
  ∧ (ls, ef) = match last evs with
               | Some x => (Sequence x, x)
               | None => (lastSeq, e)
               end.
Proof.
  revert lastSeq e evs.
  induction lines as [|line pre IH]; intros lastSeq e evs H.
  - simpl in H. by simplify_eq.
  - loop_pass H; simplify_eq; destruct (IH _ _ _ Hrest) as [Hlen Hlast];
      (split; [simpl; by rewrite Hlen|]);
      rewrite Hlast;
      apply (last_cons_default (λ x, (Sequence x, x)) (lastSeq, e)).
Qed.

(** A scan without an error stores all four fields: the result does not
    depend on what the variable held before. *)
Lemma Sscanf_ok_fresh line e r :
  Sscanf line e = (r, None) → ∀ e', Sscanf line e' = (r, None).
Proof.
  unfold Sscanf. intros H e'.
  repeat match type of H with
  | context [match ?x with _ => _ end] =>
    match x with
    | context [e] => fail 1
    | _ => destruct x as [?|[??]]; try discriminate H
    end
  end.
  by simplify_eq.
Qed.

(** [ReadEvents] in terms of its loop. *)
Lemma ReadEvents_loop contents lines tooLong evs err ls ef :
  Go.ScanLines contents = (lines, tooLong) →
  Logger.readLoop lines 0 zeroEvent = (evs, err, ls, ef) →
  Logger.ReadEvents (Logger.MakeFileTransactionLogger contents) =
  (evs,
   match err with
   | Some _ => err
   | None => if tooLong then Some ErrReadFailure else None
   end,
   Logger.mkLogger [] [] ls contents 0%Z).
Proof.
  intros Hscan Hloop. unfold Logger.ReadEvents. simpl.
  by rewrite Hscan, Hloop.
Qed.

Lemma V1_ReadEvents_loop contents lines tooLong evs err ls ef :
  Go.ScanLines contents = (lines, tooLong) →
  LoggerV1.readLoop lines 0 zeroEvent = (evs, err, ls, ef) →
  LoggerV1.ReadEvents (LoggerV1.MakeFileTransactionLogger contents) =
  (evs,
   match err with
   | Some _ => err
   | None => if tooLong then Some ErrReadFailure else None
   end,
   LoggerV1.mkLogger [] [] ls contents).
Proof.
  intros Hscan Hloop. unfold LoggerV1.ReadEvents. simpl.
  by rewrite Hscan, Hloop.
Qed.

(** Start-up in terms of the loop of [ReadEvents], for either revision. *)
Lemma replay_loop rev contents lines tooLong evs err ls ef :
  Go.ScanLines contents = (lines, tooLong) →
  readLoopOf rev lines 0 zeroEvent = (evs, err, ls, ef) →
  let err' := match err with
              | Some _ => err
              | None => if tooLong then Some ErrReadFailure else None
              end in
  readEvents rev contents = (evs, err')
  ∧ replayOf rev contents = (applyEvents Store.empty evs, err').
Proof.
  intros Hscan Hloop. destruct rev; simpl in *.
  - unfold Logger.replay.
    by rewrite (ReadEvents_loop _ _ _ _ _ _ _ Hscan Hloop).
  - unfold LoggerV1.replay.
    by rewrite (V1_ReadEvents_loop _ _ _ _ _ _ _ Hscan Hloop).
Qed.

(** The loop of either revision on a line whose sequence number is not
    above [lastSequence]. *)
Lemma readLoop_out_of_order rev line rest lastSeq e r :
  scans rev line e r → Sequence r ≤ lastSeq →
  readLoopOf rev (line :: rest) lastSeq e =
    ([], Some ErrOutOfSequence, lastSeq, r).
Proof.
  intros Hscan Hle. apply N.leb_le in Hle. destruct rev; simpl in Hscan.
  - unfold readLoopOf. rewrite readLoop_cons. cbv zeta.
    by rewrite Hscan, Hle.
  - unfold readLoopOf. rewrite V1_readLoop_cons.
    by rewrite Hscan, Hle.
Qed.

Lemma readLoopOf_app_ok rev lines rest lastSeq e evs ls ef :
  readLoopOf rev lines lastSeq e = (evs, None, ls, ef) →
  readLoopOf rev (lines ++ rest) lastSeq e =
    let '(evs', err, ls', ef') := readLoopOf rev rest ls ef in
    (evs ++ evs', err, ls', ef').
Proof.
  destruct rev; [apply readLoop_app_ok | apply V1_readLoop_app_ok].
Qed.

Lemma readLoopOf_ok_last rev lines lastSeq e evs ls ef :
  readLoopOf rev lines lastSeq e = (evs, None, ls, ef) →
  length evs = length lines
  ∧ (ls, ef) = match last evs with
               | Some x => (Sequence x, x)
               | None => (lastSeq, e)
               end.
Proof.
  destruct rev; [apply readLoop_ok_last | apply V1_readLoop_ok_last].
Qed.

Lemma readLoopOf_app_err rev lines rest lastSeq e evs err ls ef :
  readLoopOf rev lines lastSeq e = (evs, Some err, ls, ef) →
  readLoopOf rev (lines ++ rest) lastSeq e = (evs, Some err, ls, ef).
Proof.
  destruct rev; [apply readLoop_app_err | apply V1_readLoop_app_err].
Qed.

(** A replay that fails within the first lines of a log fails in the same
    way on the whole log: no event of a later line is sent. *)
Lemma replay_abort_is_final rev contents lines rest tooLong evs err ls ef :
  Go.ScanLines contents = (lines ++ rest, tooLong) →
  readLoopOf rev lines 0 zeroEvent = (evs, Some err, ls, ef) →
  readEvents rev contents = (evs, Some err)
  ∧ replayOf rev contents = (applyEvents Store.empty evs, Some err).
Proof.
  intros Hscan Hloop.
  apply (readLoopOf_app_err _ _ rest) in Hloop.
  apply (replay_loop rev _ _ _ _ _ _ _ Hscan Hloop).
Qed.

(** The loop of either revision sends the out-of-order error only at a
    record whose sequence number is not above [lastSequence]. *)
Lemma out_of_order_only_when_not_above rev lines lastSeq e evs ls ef :
  readLoopOf rev lines lastSeq e = (evs, Some ErrOutOfSequence, ls, ef) →
  Sequence ef ≤ ls.
Proof.
  revert lastSeq e evs.
  induction lines as [|line rest IH]; intros lastSeq e evs H.
  - by destruct rev.
  - destruct rev; unfold readLoopOf in *; loop_pass H; simplify_eq;
      try (by apply N.leb_le); by eapply IH.
Qed.

(** C2. When the records of a log up to some record replay without an
    error and the next record's sequence number is not above that record's,
    replay stops at this next record with the out-of-order error: the
    events sent are those of the records before it, one for each, and
    nothing of this record or of what follows is sent or applied to the
    store.  This holds in both revisions. *)
Theorem C2_out_of_order_aborts (rev : revision) (contents : string)
    (pre : list string) (prev line : string) (post : list string)
    (tooLong : bool) (evs : list Event) (ls : N) (ef r : Event) :
  Go.ScanLines contents = (pre ++ prev :: line :: post, tooLong) →
  readLoopOf rev (pre ++ [prev]) 0 zeroEvent = (evs, None, ls, ef) →
  scans rev line ef r →
  Sequence r ≤ Sequence ef →
  readEvents rev contents = (evs, Some ErrOutOfSequence)
  ∧ replayOf rev contents = (applyEvents Store.empty evs, Some ErrOutOfSequence)
  ∧ length evs = S (length pre)
  ∧ last evs = Some ef.
Proof.
  intros Hscan Hpre Hline Hle.
  destruct (readLoopOf_ok_last _ _ _ _ _ _ _ Hpre) as [Hlen Hlast].
  rewrite length_app in Hlen. simpl in Hlen.
  destruct (last evs) as [x|] eqn:Hx;
    [|apply last_None in Hx; subst evs; simpl in Hlen; lia].
  simplify_eq.
  pose proof (readLoopOf_app_ok rev _ (line :: post) _ _ _ _ _ Hpre) as Happ.
  rewrite (readLoop_out_of_order rev line post _ _ r Hline Hle) in Happ.
  rewrite <- app_assoc in Happ. simpl in Happ. rewrite app_nil_r in Happ.
  destruct (replay_loop rev _ _ _ _ _ _ _ Hscan Happ) as [H1 H2].
  split_and!; [done|done|lia|done].
Qed.

(** X7. The earlier revision stops with a parse error at the first line
    on which [fmt.Sscanf] reports an error: the events sent are those of
    the lines before it, and nothing that follows is looked at. *)
Lemma V1_malformed_record_aborts contents pre bad post tooLong evs ls ef e1
    err :
  Go.ScanLines contents = (pre ++ bad :: post, tooLong) →
  LoggerV1.readLoop pre 0 zeroEvent = (evs, None, ls, ef) →
  Sscanf bad ef = (e1, Some err) →
  readEvents Earlier contents = (evs, Some (ErrParse err))
  ∧ replayOf Earlier contents
    = (applyEvents Store.empty evs, Some (ErrParse err))
  ∧ length evs = length pre.
Proof.
  intros Hscan Hpre Hbad.
  pose proof (V1_readLoop_app_ok (bad :: post) _ _ _ _ _ _ Hpre) as Happ.
  rewrite V1_readLoop_cons, Hbad in Happ. rewrite app_nil_r in Happ.
  destruct (replay_loop Earlier _ _ _ _ _ _ _ Hscan Happ) as [H1 H2].
  destruct (V1_readLoop_ok_last _ _ _ _ _ _ Hpre) as [Hlen _].
  done.
Qed.

(** Decoding the value leaves the sequence number as it is. *)
Lemma decode_Sequence rev r ev :
  decode rev r = Some ev → Sequence ev = Sequence r.
Proof.
  destruct rev; simpl; [|by intros [= ->]].
  destruct (Go.QueryUnescape (Value r)); simpl; [|done]. by intros [= <-].
Qed.

(** The loop of either revision goes through well-formed records with
    ascending sequence numbers to the end, whatever the steps between the
    numbers. *)
Lemma readLoop_ascending rev lines recs evs :
  Forall2 (λ line r, Sscanf line zeroEvent = (r, None)) lines recs →
  Forall2 (λ r ev, decode rev r = Some ev) recs evs →
  ∀ lastSeq e, ascending lastSeq recs →
  ∃ ls ef, readLoopOf rev lines lastSeq e = (evs, None, ls, ef).
Proof.
  intros Hparse. revert evs.
  induction Hparse as [|line r lines recs Hline _ IH];
    intros evs Hdec lastSeq e Hasc.
  - apply Forall2_nil_inv_l in Hdec as ->. destruct rev; simpl; eauto.
  - apply Forall2_cons_inv_l in Hdec as (ev & evs' & Hev & Hevs & ->).
    destruct Hasc as [Hlt Hasc].
    pose proof (Sscanf_ok_fresh _ _ _ Hline e) as Hline'.
    clear Hline. rename Hline' into Hline.
    apply N.leb_gt in Hlt.
    pose proof (decode_Sequence _ _ _ Hev) as Hseq.
    rewrite <- Hseq in Hasc.
    destruct (IH _ Hevs (Sequence ev) ev Hasc) as (ls & ef & Hrest).
    exists ls, ef. destruct rev; unfold readLoopOf in *.
    + rewrite readLoop_cons. cbv zeta. rewrite Hline. simpl fst. rewrite Hlt.
      simpl in Hev. destruct (Go.QueryUnescape (Value r)) as [uv|]; [|done].
      simpl in Hev. simplify_eq. by rewrite Hrest.
    + rewrite V1_readLoop_cons, Hline, Hlt. simpl in Hev. simplify_eq.
      by rewrite Hrest.
Qed.

(** C9. A log of well-formed records whose sequence numbers go up, by steps
    of any size, replays to the end in both revisions: one event is sent for
    every record, in order and with the record's sequence number, and no
    error; a gap in the numbers is not taken for corruption. *)
Theorem C9_gaps_are_accepted (rev : revision) (contents : string)
    (lines : list string) (recs evs : list Event) :
  Go.ScanLines contents = (lines, false) →
  Forall2 (λ line r, Sscanf line zeroEvent = (r, None)) lines recs →
  Forall2 (λ r ev, decode rev r = Some ev) recs evs →
  ascending 0 recs →
  readEvents rev contents = (evs, None)
  ∧ replayOf rev contents = (applyEvents Store.empty evs, None)
  ∧ map Sequence evs = map Sequence recs.
Proof.
  intros Hscan Hparse Hdec Hasc.
  destruct (readLoop_ascending rev _ _ _ Hparse Hdec 0 zeroEvent Hasc)
    as (ls & ef & Hloop).
  destruct (replay_loop rev _ _ _ _ _ _ _ Hscan Hloop) as [H1 H2].
  split_and!; [done|done|].
  clear -Hdec. induction Hdec as [|r ev recs evs Hev _ IH]; [done|].
  simpl. by rewrite IH, (decode_Sequence _ _ _ Hev).
Qed.

(** ** The armed phase: what the worker does with the events it is sent *)

Lemma append_assoc (a b c : string) : (a +:+ b) +:+ c = a +:+ b +:+ c.
Proof.
  induction a as [|x a IH]; [done|].
  change (String x ((a +:+ b) +:+ c) = String x (a +:+ b +:+ c)).
  by rewrite IH.
Qed.

Lemma append_nil_r (a : string) : a +:+ EmptyString = a.
Proof.
  induction a as [|x a IH]; [done|].
  change (String x (a +:+ EmptyString) = String x a). by rewrite IH.
Qed.

(** When no write failed, the file holds what it held and then the texts of
    the passes. *)
Lemma written_all_ok file atts :
  Forall (λ a, a_result a = WriteOk) atts →
  written file atts = file +:+ texts atts.
Proof.
  intros Hok. revert file.
  induction Hok as [|a atts Ha _ IH]; intros file.
  - simpl. by rewrite append_nil_r.
  - change (written file (a :: atts))
      with (written (write_file file (record_text (a_seq a) (a_event a))
                       (a_result a)) atts).
    rewrite IH, Ha. simpl. by rewrite append_assoc.
Qed.

Lemma last_seq_app lastSeq atts1 atts2 :
  last_seq lastSeq (atts1 ++ atts2) = last_seq (last_seq lastSeq atts1) atts2.
Proof.
  unfold last_seq. destruct atts2 as [|a atts2 _] using rev_ind.
  - by rewrite app_nil_r.
  - by rewrite app_assoc, !last_snoc.
Qed.

Lemma last_seq_cons lastSeq a atts :
  last_seq lastSeq (a :: atts) = last_seq (a_seq a) atts.
Proof. apply (last_seq_app lastSeq [a] atts). Qed.

Lemma numbered_app lastSeq atts1 atts2 :
  numbered lastSeq atts1 → numbered (last_seq lastSeq atts1) atts2 →
  numbered lastSeq (atts1 ++ atts2).
Proof.
  revert lastSeq. induction atts1 as [|a atts1 IH]; intros lastSeq; simpl.
  - done.
  - intros [Ha H1] H2. split; [done|]. apply IH; [done|].
    by rewrite last_seq_cons in H2.
Qed.

Lemma written_app file atts1 atts2 :
  written file (atts1 ++ atts2) = written (written file atts1) atts2.
Proof. apply fold_left_app. Qed.

Lemma follows_refl o : follows o o [] [].
Proof. unfold follows. by rewrite !app_nil_r. Qed.

Lemma follows_trans o1 o2 o3 enq1 enq2 new1 new2 :
  follows o1 o2 enq1 new1 → follows o2 o3 enq2 new2 →
  follows o1 o3 (enq1 ++ enq2) (new1 ++ new2).
Proof.
  intros (Ha1 & He1 & Hn1 & Hl1 & Hf1) (Ha2 & He2 & Hn2 & Hl2 & Hf2).
  unfold follows. split_and!.
  - by rewrite Ha2, Ha1, app_assoc.
  - by rewrite map_app, <- app_assoc, He2, !app_assoc, He1.
  - apply numbered_app; [done|]. by rewrite <- Hl1.
  - by rewrite Hl2, Hl1, last_seq_app.
  - by rewrite Hf2, Hf1, written_app.
Qed.

Lemma intents_cons a sched :
  intents (a :: sched) = intents [a] ++ intents sched.
Proof. by destruct a. Qed.

(** One step of the revision with the WaitGroup. *)
Lemma step_follows a s s' :
  Logger.step a s = Some s' →
  ∃ new, follows (observe s) (observe s') (intents [a]) new
         ∧ (Logger.pc s ≠ Returned → Logger.pc s' ≠ Returned).
Proof.
  destruct s as [[evs errs ls f n] p atts], a as [[k v|k]|w| |];
    unfold Logger.step, Logger.WritePut, Logger.WriteDelete, Logger.sendEvent,
      Logger.writeStep, Logger.sendStep, Logger.recvError; simpl; intros H;
    csimpl in H.
  - case_decide; csimpl in H; simplify_eq. exists [].
    unfold follows; simpl. by rewrite !app_nil_r.
  - case_decide; csimpl in H; simplify_eq. exists [].
    unfold follows; simpl. by rewrite !app_nil_r.
  - destruct p, evs as [|e q]; try discriminate H.
    exists [mkAttempt ((ls + 1) mod 2 ^ 64) e w].
    destruct (failed w); simplify_eq; unfold follows, last_seq, written;
      simpl; by rewrite !app_nil_r.
  - destruct p; try discriminate H. case_decide; csimpl in H; simplify_eq.
    exists []. unfold follows; simpl. by rewrite !app_nil_r.
  - destruct errs; csimpl in H; simplify_eq. exists [].
    unfold follows; simpl. by rewrite !app_nil_r.
Qed.

(** One step of the earlier revision. *)
Lemma V1_step_follows a s s' :
  LoggerV1.step a s = Some s' →
  ∃ new, follows (observeV1 s) (observeV1 s') (intents [a]) new.
Proof.
  destruct s as [[evs errs ls f] p atts], a as [[k v|k]|w| |];
    unfold LoggerV1.step, LoggerV1.WritePut, LoggerV1.WriteDelete,
      LoggerV1.sendEvent, LoggerV1.writeStep, LoggerV1.sendStep,
      LoggerV1.recvError; simpl; intros H; csimpl in H.
  - case_decide; csimpl in H; simplify_eq. exists [].
    unfold follows; simpl. by rewrite !app_nil_r.
  - case_decide; csimpl in H; simplify_eq. exists [].
    unfold follows; simpl. by rewrite !app_nil_r.
  - destruct p, evs as [|e q]; try discriminate H.
    exists [mkAttempt ((ls + 1) mod 2 ^ 64) e w].
    simplify_eq; unfold follows, last_seq, written; simpl;
      by rewrite !app_nil_r.
  - destruct p; try discriminate H. case_decide; csimpl in H; simplify_eq.
    exists []. unfold follows; simpl. by rewrite !app_nil_r.
  - destruct errs; csimpl in H; simplify_eq. exists [].
    unfold follows; simpl. by rewrite !app_nil_r.
Qed.

(** Any schedule of the revision with the WaitGroup. *)
Lemma run_follows sched s s' :
  Logger.run sched s = Some s' →
  ∃ new, follows (observe s) (observe s') (intents sched) new
         ∧ (Logger.pc s ≠ Returned → Logger.pc s' ≠ Returned).
Proof.
  revert s. induction sched as [|a sched IH]; intros s H; simpl in H.
  - simplify_eq. exists []. split; [apply follows_refl|done].
  - destruct (Logger.step a s) as [s1|] eqn:Hstep; [|done]. csimpl in H.
    destruct (step_follows _ _ _ Hstep) as (new1 & H1 & Hpc1).
    destruct (IH _ H) as (new2 & H2 & Hpc2).
    exists (new1 ++ new2). rewrite intents_cons.
    split; [by eapply follows_trans|auto].
Qed.

(** Any schedule of the earlier revision. *)
Lemma V1_run_follows sched s s' :
  LoggerV1.run sched s = Some s' →
  ∃ new, follows (observeV1 s) (observeV1 s') (intents sched) new.
Proof.
  revert s. induction sched as [|a sched IH]; intros s H; simpl in H.
  - simplify_eq. exists []. apply follows_refl.
  - destruct (LoggerV1.step a s) as [s1|] eqn:Hstep; [|done]. csimpl in H.
    destruct (V1_step_follows _ _ _ Hstep) as (new1 & H1).
    destruct (IH _ H) as (new2 & H2).
    exists (new1 ++ new2). rewrite intents_cons. by eapply follows_trans.
Qed.

(** What a schedule leaves of a logger armed with [lastSequence] at
    [lastSeq], in either revision. *)
Lemma runFrom_follows rev lastSeq contents sched o :
  runFrom rev lastSeq contents sched = Some o →
  follows (mkObserved [] [] lastSeq contents AtRange []) o (intents sched)
    (o_attempts o).
Proof.
  destruct rev; simpl; intros H.
  - destruct (Logger.run _ _) as [s|] eqn:Hrun; csimpl in H; [|done].
    simplify_eq. destruct (run_follows _ _ _ Hrun) as (new & Hf & _).
    destruct Hf as [Ha Hf]. simpl in Ha.
    unfold observe at 2. simpl. rewrite Ha. by split.
  - destruct (LoggerV1.run _ _) as [s|] eqn:Hrun; csimpl in H; [|done].
    simplify_eq. destruct (V1_run_follows _ _ _ Hrun) as (new & Hf).
    destruct Hf as [Ha Hf]. simpl in Ha.
    unfold observeV1 at 2. simpl. rewrite Ha. by split.
Qed.

(** Sequence numbers that never reach 2^64 are the numbers after
    [lastSeq], one by one. *)
Lemma numbered_closed_form lastSeq atts :
  numbered lastSeq atts →
  lastSeq + N.of_nat (length atts) < 2 ^ 64 →
  map a_seq atts = map (λ i, lastSeq + N.of_nat i) (seq 1 (length atts))
  ∧ last_seq lastSeq atts = lastSeq + N.of_nat (length atts).
Proof.
  revert lastSeq. induction atts as [|a atts IH]; intros lastSeq Hnum Hlt.
  - simpl. split; [done|]. unfold last_seq. simpl. lia.
  - destruct Hnum as [Ha Hnum]. simpl length in *.
    rewrite N.mod_small in Ha by lia.
    assert (a_seq a + N.of_nat (length atts) < 2 ^ 64) as Hlt' by lia.
    destruct (IH (a_seq a) Hnum Hlt') as [IH1 IH2].
    rewrite last_seq_cons, IH2. split; [|lia].
    simpl. rewrite IH1, Ha. f_equal.
    rewrite <- (seq_shift _ 1), map_map. apply map_ext. intros i. lia.
Qed.

(** C3. Armed on a new, empty log, the worker gives every pass through
    its loop the sequence number after the one before it (modulo 2^64),
    starting after 0: as long as fewer than 2^64 events have been taken, the
    passes carry the numbers 1, 2, 3, ... in the order the events were sent;
    the file holds what the writes of these passes left, in this order, and
    when no write failed it holds the records 1, 2, 3, ...  This holds in
    both revisions, whatever the order of the steps. *)
Theorem C3_sequence_numbers (rev : revision) (sched : list action)
    (o : observed) :
  runFrom rev 0 EmptyString sched = Some o →
  N.of_nat (length (o_attempts o)) < 2 ^ 64 →
  numbered 0 (o_attempts o)
  ∧ map a_seq (o_attempts o) = map N.of_nat (seq 1 (length (o_attempts o)))
  ∧ map a_event (o_attempts o) ++ o_events o = intents sched
  ∧ o_lastSequence o = N.of_nat (length (o_attempts o))
  ∧ o_file o = written EmptyString (o_attempts o)
  ∧ (Forall (λ a, a_result a = WriteOk) (o_attempts o) →
     o_file o = texts (o_attempts o)).
Proof.
  intros Hrun Hlt.
  destruct (runFrom_follows _ _ _ _ _ Hrun) as (_ & He & Hn & Hl & Hf).
  simpl in He, Hn, Hl, Hf.
  assert (0 + N.of_nat (length (o_attempts o)) < 2 ^ 64) as Hlt' by lia.
  destruct (numbered_closed_form 0 _ Hn Hlt') as [H1 H2].
  split_and!.
  - done.
  - rewrite H1. apply map_ext. intros i. lia.
  - done.
  - rewrite Hl, H2. lia.
  - done.
  - intros Hok. by rewrite Hf, (written_all_ok _ _ Hok).
Qed.

Lemma run_app sched1 sched2 s :
  Logger.run (sched1 ++ sched2) s = Logger.run sched1 s ≫= Logger.run sched2.
Proof.
  revert s. induction sched1 as [|a sched1 IH]; intros s; simpl; [done|].
  destruct (Logger.step a s); csimpl; [apply IH|done].
Qed.

(** The worker of the revision with the WaitGroup never returns. *)
Lemma worker_never_returns sched l s :
  Logger.run sched (Logger.Run l) = Some s → Logger.pc s ≠ Returned.
Proof.
  intros H. destruct (run_follows _ _ _ H) as (_ & _ & Hpc). by apply Hpc.
Qed.

(** The counter of the WaitGroup counts the passes still to end, so
    [l.wg.Done()] never takes it below zero. *)
Lemma wg_counts_pending sched s s' :
  Logger.run sched s = Some s' →
  (Logger.wg (Logger.log s') - Logger.pending s'
   = Logger.wg (Logger.log s) - Logger.pending s)%Z.
Proof.
  revert s. induction sched as [|a sched IH]; intros s H; simpl in H.
  - by simplify_eq.
  - destruct (Logger.step a s) as [s1|] eqn:Hstep; csimpl in H; [|done].
    rewrite (IH _ H). clear IH H.
    destruct s as [[evs errs ls f n] p atts], a as [[k v|k]|w| |];
      unfold Logger.step, Logger.WritePut, Logger.WriteDelete,
        Logger.sendEvent, Logger.writeStep, Logger.sendStep,
        Logger.recvError, Logger.pending in *; simpl in *.
    + case_decide; csimpl in Hstep; simplify_eq. simpl.
      rewrite length_app. simpl. lia.
    + case_decide; csimpl in Hstep; simplify_eq. simpl.
      rewrite length_app. simpl. lia.
    + destruct p, evs as [|e q]; try discriminate Hstep.
      destruct (failed w); simplify_eq; simpl; lia.
    + destruct p; try discriminate Hstep.
      case_decide; simplify_eq. simpl. lia.
    + destruct errs; csimpl in Hstep; simplify_eq. simpl. lia.
Qed.

(** At the head of its loop with an event in the channel, the worker takes
    the event and makes one pass for it, whatever the write comes to. *)
Lemma worker_takes_next s w e q :
  Logger.pc s = AtRange → Logger.events (Logger.log s) = e :: q →
  ∃ s', Logger.writeStep w s = Some s'
        ∧ Logger.events (Logger.log s') = q
        ∧ Logger.errors (Logger.log s') = Logger.errors (Logger.log s)
        ∧ Logger.attempts s' =
          Logger.attempts s
            ++ [mkAttempt ((Logger.lastSequence (Logger.log s) + 1) mod 2 ^ 64)
                  e w]
        ∧ Logger.pc s' = if failed w then AtSend else AtRange.
Proof.
  intros Hpc Hev. unfold Logger.writeStep. rewrite Hpc, Hev.
  destruct (failed w); eauto 10.
Qed.

(** After a failed write and with room in the error channel, the worker
    sends the error and is back at the head of its loop: the event is not
    tried again, and the events that wait are still in the channel. *)
Lemma worker_sends_error s :
  Logger.pc s = AtSend → Logger.errors (Logger.log s) = [] →
  ∃ s', Logger.sendStep s = Some s'
        ∧ Logger.errors (Logger.log s') = [ErrWrite]
        ∧ Logger.events (Logger.log s') = Logger.events (Logger.log s)
        ∧ Logger.attempts s' = Logger.attempts s
        ∧ Logger.pc s' = AtRange.
Proof.
  intros Hpc Herr. unfold Logger.sendStep. rewrite Hpc, Herr. simpl.
  eauto 10.
Qed.

(** After a failed write and without room in the error channel, the worker
    makes no pass until somebody receives from [Err()]. *)
Lemma worker_blocked sched s s' :
  Logger.pc s = AtSend →
  length (Logger.errors (Logger.log s)) = Logger.errorsCap →
  Forall (λ a, a ≠ RecvErr) sched →
  Logger.run sched s = Some s' →
  Logger.attempts s' = Logger.attempts s ∧ Logger.pc s' = AtSend.
Proof.
  intros Hpc Herr Hsched. revert s Hpc Herr.
  induction Hsched as [|a sched Ha _ IH]; intros s Hpc Herr H; simpl in H.
  - by simplify_eq.
  - destruct (Logger.step a s) as [s1|] eqn:Hstep; csimpl in H; [|done].
    assert (Logger.attempts s1 = Logger.attempts s ∧ Logger.pc s1 = AtSend
            ∧ length (Logger.errors (Logger.log s1)) = Logger.errorsCap)
      as (Ha1 & Hpc1 & Herr1).
    { destruct s as [[evs errs ls f n] p atts], a as [[k v|k]|w| |];
        simpl in *; subst p;
        unfold Logger.WritePut, Logger.WriteDelete, Logger.sendEvent,
          Logger.writeStep, Logger.sendStep in Hstep; simpl in Hstep;
        try done.
      - case_decide; csimpl in Hstep; by simplify_eq.
      - case_decide; csimpl in Hstep; by simplify_eq.
      - case_decide; [lia|done]. }
    destruct (IH _ Hpc1 Herr1 H) as [-> ->]. by rewrite Ha1.
Qed.

(** C4, as amended. In the revision with the WaitGroup, when every error
    the worker sends is received from [Err()], the worker goes through all
    the events that wait in its channel, whatever the writes come to: it
    makes one pass for each event, in order, tries no event again after a
    failed write, and ends at the head of its loop with the channel
    empty. *)
Theorem C4_worker_goes_on (s : Logger.armed) (ws : list write_result) :
  Logger.pc s = AtRange →
  Logger.errors (Logger.log s) = [] →
  length ws = length (Logger.events (Logger.log s)) →
  ∃ s' new,
    Logger.run (passes ws) s = Some s'
    ∧ Logger.attempts s' = Logger.attempts s ++ new
    ∧ map a_event new = Logger.events (Logger.log s)
    ∧ map a_result new = ws
    ∧ Logger.events (Logger.log s') = []
    ∧ Logger.errors (Logger.log s') = []
    ∧ Logger.pc s' = AtRange.
Proof.
  revert s. induction ws as [|w ws IH]; intros s Hpc Herr Hlen.
  - exists s, []. destruct (Logger.events (Logger.log s)); [|done].
    by rewrite app_nil_r.
  - destruct (Logger.events (Logger.log s)) as [|e q] eqn:Hev; [done|].
    destruct (worker_takes_next s w e q Hpc Hev)
      as (s1 & Hstep1 & Hev1 & Herr1 & Hatt1 & Hpc1).
    rewrite Herr in Herr1.
    assert (∃ s2, Logger.run
                    (if failed w then [Write w; SendErr; RecvErr]
                     else [Write w]) s = Some s2
                  ∧ Logger.events (Logger.log s2) = q
                  ∧ Logger.errors (Logger.log s2) = []
                  ∧ Logger.attempts s2 = Logger.attempts s1
                  ∧ Logger.pc s2 = AtRange)
      as (s2 & Hrun2 & Hev2 & Herr2 & Hatt2 & Hpc2).
    { destruct (failed w).
      - destruct (worker_sends_error s1 Hpc1 Herr1)
          as (s2 & Hstep2 & Herr2 & Hev2 & Hatt2 & Hpc2).
        eexists. simpl. rewrite Hstep1. csimpl. rewrite Hstep2. csimpl.
        unfold Logger.recvError. rewrite Herr2. csimpl.
        split; [done|]. simpl. by rewrite Hev2.
      - exists s1. simpl. rewrite Hstep1. by csimpl. }
    destruct (IH s2 Hpc2 Herr2) as (s' & new & Hrun & Hatt & He & Hr & Hfin).
    { rewrite Hev2. simpl in Hlen. lia. }
    exists s', (mkAttempt
                  ((Logger.lastSequence (Logger.log s) + 1) mod 2 ^ 64) e w
                :: new).
    split_and!; try apply Hfin.
    + change (passes (w :: ws))
        with ((if failed w then [Write w; SendErr; RecvErr] else [Write w])
              ++ passes ws).
      rewrite run_app, Hrun2. by csimpl.
    + rewrite Hatt, Hatt2, Hatt1, <- app_assoc. done.
    + simpl. by rewrite He, Hev2.
    + simpl. by rewrite Hr.
Qed.

(** The worker of the earlier revision returns after it has sent the error
    of a failed write: it makes no further pass. *)
Lemma V1_worker_returned sched s s' :
  LoggerV1.pc s = Returned →
  LoggerV1.run sched s = Some s' →
  LoggerV1.attempts s' = LoggerV1.attempts s ∧ LoggerV1.pc s' = Returned.
Proof.
  revert s. induction sched as [|a sched IH]; intros s Hpc H; simpl in H.
  - by simplify_eq.
  - destruct (LoggerV1.step a s) as [s1|] eqn:Hstep; csimpl in H; [|done].
    assert (LoggerV1.attempts s1 = LoggerV1.attempts s
            ∧ LoggerV1.pc s1 = Returned) as (Ha1 & Hpc1).
    { destruct s as [[evs errs ls f] p atts], a as [[k v|k]|w| |];
        simpl in *; subst p;
        unfold LoggerV1.WritePut, LoggerV1.WriteDelete, LoggerV1.sendEvent,
          LoggerV1.writeStep, LoggerV1.sendStep, LoggerV1.recvError in Hstep;
        simpl in Hstep; try done.
      - case_decide; csimpl in Hstep; by simplify_eq.
      - case_decide; csimpl in Hstep; by simplify_eq.
      - destruct errs; csimpl in Hstep; by simplify_eq. }
    destruct (IH _ Hpc1 H) as [-> ->]. by rewrite Ha1.
Qed.

Lemma V1_worker_returns_after_failure s n e q :
  LoggerV1.pc s = AtRange →
  LoggerV1.events (LoggerV1.log s) = e :: q →
  LoggerV1.errors (LoggerV1.log s) = [] →
  ∃ s', LoggerV1.run [Write (WriteFail n); SendErr] s = Some s'
        ∧ LoggerV1.pc s' = Returned
        ∧ LoggerV1.errors (LoggerV1.log s') = [ErrWrite]
        ∧ LoggerV1.events (LoggerV1.log s') = q
        ∧ ∀ sched s'', LoggerV1.run sched s' = Some s'' →
                       LoggerV1.attempts s'' = LoggerV1.attempts s'.
Proof.
  intros Hpc Hev Herr. destruct s as [[evs errs ls f] p atts].
  simpl in *. subst. eexists. split; [reflexivity|]. simpl.
  split_and!; try done.
  intros sched s'' H. by apply V1_worker_returned in H as [-> _].
Qed.

(** ** Round trip of operations on plain words *)

Lemma runes_ascii s1 s2 :
  all_bytes ascii_byte s1 = true →
  Go.runes (s1 +:+ s2) = codes s1 ++ Go.runes s2.
Proof.
  induction s1 as [|c s1 IH]; simpl; [done|].
  intros [Hc Hs]%andb_prop. unfold Go.runes in *. simpl.
  unfold Go.DecodeRune. unfold ascii_byte in Hc. rewrite Hc. simpl.
  unfold codes. simpl. f_equal. by apply IH.
Qed.

Lemma runes_ascii_end s :
  all_bytes ascii_byte s = true → Go.runes s = codes s.
Proof.
  intros H. induction s as [|c s IH]; [done|].
  simpl in H. apply andb_prop in H as [Hc Hs].
  unfold Go.runes in *. simpl.
  unfold Go.DecodeRune. unfold ascii_byte in Hc. rewrite Hc. simpl.
  unfold codes. simpl. f_equal. by apply IH.
Qed.

Lemma bytes_of_codes s :
  all_bytes ascii_byte s = true → Go.bytes_of_runes (codes s) = s.
Proof.
  induction s as [|c s IH]; [done|]. simpl.
  intros [Hc Hs]%andb_prop. unfold codes. simpl.
  change (Go.bytes_of_runes (N_of_ascii c :: codes s) = String c s).
  unfold Go.bytes_of_runes. simpl. fold (Go.bytes_of_runes (codes s)).
  rewrite (IH Hs). unfold Go.AppendRune.
  unfold ascii_byte in Hc. apply N.ltb_lt in Hc.
  destruct (N.leb_spec (N_of_ascii c) 127); [|lia].
  unfold Go.byte1, Go.chr. by rewrite ascii_N_embedding.
Qed.

Lemma span_app p xs y rest :
  forallb p xs = true → p y = false →
  Go.span p (xs ++ y :: rest) = (xs, y :: rest).
Proof.
  intros Hxs Hy. induction xs as [|x xs IH]; simpl.
  - by rewrite Hy.
  - simpl in Hxs. apply andb_prop in Hxs as [Hx Hxs].
    by rewrite Hx, (IH Hxs).
Qed.

Lemma span_all p xs :
  forallb p xs = true → Go.span p xs = (xs, []).
Proof.
  intros Hxs. induction xs as [|x xs IH]; simpl; [done|].
  simpl in Hxs. apply andb_prop in Hxs as [Hx Hxs].
  by rewrite Hx, (IH Hxs).
Qed.

Lemma isSpace_newline r : Go.isSpace r = false → Go.isNewline r = false.
Proof.
  unfold Go.isNewline. destruct (N.eqb_spec r 10) as [->|]; [|done].
  by vm_compute.
Qed.

Lemma SkipSpace_word x l :
  Go.isSpace x = false → Go.SkipSpace (x :: l) = inr (x :: l).
Proof. intros H. simpl. by rewrite (isSpace_newline _ H), H. Qed.

Lemma isDigit_not_space d : Go.isDigit d = true → Go.isSpace d = false.
Proof.
  unfold Go.isDigit. intros [H1 H2]%andb_prop.
  apply N.leb_le in H1, H2. unfold Go.isSpace.
  destruct (N.leb_spec 65536 d); [done|].
  unfold Go.space, Go.in_ranges.
  destruct (N.ltb_spec d 9); [done|].
  destruct (N.leb_spec d 13); [lia|].
  destruct (N.ltb_spec d 32); [lia|].
  destruct (N.leb_spec d 32); [lia|].
  destruct (N.ltb_spec d 133); [done|lia].
Qed.


Lemma digit_string_digits d : forallb Go.isDigit (digit_string d) = true.
Proof. induction d; simpl; try done. Qed.

Lemma decimal_value_acc d acc :
  fold_left (λ a x, 10 * a + (x - 48)) (digit_string d) (Npos acc)
  = Npos (Pos.of_uint_acc d acc).
Proof.
  revert acc. unfold digit_string, codes.
  induction d as [|d IH|d IH|d IH|d IH|d IH|d IH|d IH|d IH|d IH|d IH];
    intros acc; simpl; [done|..]; rewrite <- IH; f_equal; lia.
Qed.

Lemma decimal_value_digits d :
  Go.decimal_value (digit_string d) = Pos.of_uint d.
Proof.
  unfold Go.decimal_value.
  induction d as [|d IH|d IH|d IH|d IH|d IH|d IH|d IH|d IH|d IH|d IH];
    simpl; [done|exact IH|..]; rewrite <- decimal_value_acc; done.
Qed.

Lemma formatUint_spec n :
  ∃ d ds, codes (Go.formatUint n) = d :: ds
          ∧ all_bytes ascii_byte (Go.formatUint n) = true
          ∧ forallb Go.isDigit (d :: ds) = true
          ∧ Go.decimal_value (d :: ds) = n.
Proof.
  unfold Go.formatUint, NilZero.string_of_uint.
  assert (N.to_uint n ≠ Decimal.Nil) as Hnil.
  { destruct n; [done|]. apply DecimalPos.Unsigned.to_uint_nonnil. }
  pose proof (DecimalN.Unsigned.of_to n) as Hof.
  unfold N.of_uint in Hof. rewrite <- decimal_value_digits in Hof.
  pose proof (digit_string_digits (N.to_uint n)) as Hdig.
  assert (all_bytes ascii_byte (NilEmpty.string_of_uint (N.to_uint n)) = true)
    as Hasc.
  { clear. induction (N.to_uint n); simpl; try done. }
  unfold digit_string in *.
  destruct (N.to_uint n) eqn:E; try done; simpl in *; eauto 10.
Qed.


Lemma record_text_line seq e : record_text seq e = record_line seq e +:+ Go.LF.
Proof. unfold record_text, record_line. by rewrite !append_assoc. Qed.

Lemma all_bytes_impl (p q : ascii → bool) s :
  (∀ c, p c = true → q c = true) →
  all_bytes p s = true → all_bytes q s = true.
Proof.
  intros Hpq. induction s as [|c s IH]; simpl; [done|].
  intros [Hc Hs]%andb_prop. by rewrite (Hpq _ Hc), (IH Hs).
Qed.

Lemma plain_ascii s :
  all_bytes plain_byte s = true → all_bytes ascii_byte s = true.
Proof.
  apply all_bytes_impl. unfold plain_byte. by intros c [? _]%andb_prop.
Qed.

Lemma plain_not_space s :
  all_bytes plain_byte s = true →
  forallb (λ r, negb (Go.isSpace r)) (codes s) = true.
Proof.
  induction s as [|c s IH]; simpl; [done|].
  intros [Hc Hs]%andb_prop. unfold plain_byte in Hc.
  apply andb_prop in Hc as [_ Hc]. unfold codes in *. simpl.
  by rewrite Hc, (IH Hs).
Qed.

Lemma codes_nonempty s : s ≠ EmptyString → ∃ x xs, codes s = x :: xs.
Proof. destruct s; [done|]. unfold codes. simpl. eauto. Qed.

(** The verb [%d] on digits that stop at a tab. *)
Lemma verb_scanUint bits d ds rest n :
  forallb Go.isDigit (d :: ds) = true →
  Go.decimal_value (d :: ds) = n →
  n < 2 ^ bits → bits ≤ 64 →
  Go.verb (Go.scanUint bits) ((d :: ds) ++ 9 :: rest) = inr (n, 9 :: rest).
Proof.
  intros Hdig Hval Hlt Hbits.
  assert (Go.isSpace d = false) as Hd.
  { simpl in Hdig. apply andb_prop in Hdig as [Hd _].
    by apply isDigit_not_space. }
  unfold Go.verb, Go.scanUint.
  change ((d :: ds) ++ 9 :: rest) with (d :: (ds ++ 9 :: rest)).
  rewrite !SkipSpace_word by done.
  change (d :: (ds ++ 9 :: rest)) with ((d :: ds) ++ 9 :: rest).
  rewrite span_app by done. rewrite Hval.
  assert (2 ^ bits ≤ 2 ^ 64) by (apply N.pow_le_mono_r; lia).
  destruct (N.leb_spec (2 ^ 64) n); [lia|].
  rewrite N.mod_small by done. by rewrite N.eqb_refl.
Qed.

(** The tab of the format before a word. *)
Lemma advanceSpace_tab x rest :
  Go.isSpace x = false →
  Go.advanceSpace (9 :: x :: rest) = inr (x :: rest).
Proof. intros Hx. unfold Go.advanceSpace. simpl. by rewrite Hx. Qed.

(** The verb [%s] on a word that stops at a tab. *)
Lemma verb_convertString_tab k rest :
  k ≠ EmptyString → all_bytes plain_byte k = true →
  Go.verb Go.convertString (codes k ++ 9 :: rest) = inr (k, 9 :: rest).
Proof.
  intros Hne Hk. pose proof (plain_not_space _ Hk) as Hns.
  destruct (codes_nonempty _ Hne) as (x & xs & Hx). rewrite Hx in Hns |- *.
  assert (Go.isSpace x = false) as Hsp.
  { simpl in Hns. apply andb_prop in Hns as [Hsp _].
    by apply negb_true_iff in Hsp. }
  unfold Go.verb, Go.convertString.
  change ((x :: xs) ++ 9 :: rest) with (x :: (xs ++ 9 :: rest)).
  rewrite !SkipSpace_word by done.
  change (x :: (xs ++ 9 :: rest)) with ((x :: xs) ++ 9 :: rest).
  rewrite span_app by done.
  rewrite <- Hx. rewrite bytes_of_codes; [done|by apply plain_ascii].
Qed.

(** The verb [%s] on a word that ends the line. *)
Lemma verb_convertString_end v :
  v ≠ EmptyString → all_bytes plain_byte v = true →
  Go.verb Go.convertString (codes v) = inr (v, []).
Proof.
  intros Hne Hv. pose proof (plain_not_space _ Hv) as Hns.
  destruct (codes_nonempty _ Hne) as (x & xs & Hx). rewrite Hx in Hns |- *.
  assert (Go.isSpace x = false) as Hsp.
  { simpl in Hns. apply andb_prop in Hns as [Hsp _].
    by apply negb_true_iff in Hsp. }
  unfold Go.verb, Go.convertString.
  rewrite !SkipSpace_word by done.
  rewrite span_all by done.
  rewrite <- Hx. rewrite bytes_of_codes; [done|by apply plain_ascii].
Qed.

Lemma runes_tab s : Go.runes (Go.TAB +:+ s) = 9 :: Go.runes s.
Proof. by apply (runes_ascii Go.TAB s). Qed.

(** [fmt.Sscanf] reads back the line of a record whose key is a plain
    word: all of it when the value is a plain word too, and all but the
    value when the value is empty. *)
Lemma Sscanf_record_line seq t k v e :
  seq < 2 ^ 64 → t < 2 ^ 8 →
  k ≠ EmptyString → all_bytes plain_byte k = true →
  all_bytes plain_byte v = true →
  Sscanf (record_line seq (mkEvent 0 t k v)) e =
  match v with
  | EmptyString => (mkEvent seq t k (Value e), Some Go.ErrEOF)
  | _ => (mkEvent seq t k v, None)
  end.
Proof.
  intros Hseq Ht Hk Hkp Hvp.
  destruct (formatUint_spec seq) as (d & ds & Hc & Ha & Hdig & Hval).
  destruct (formatUint_spec t) as (d' & ds' & Hc' & Ha' & Hdig' & Hval').
  destruct (codes_nonempty _ Hk) as (x & xs & Hx).
  assert (Go.isSpace x = false) as Hsp.
  { pose proof (plain_not_space _ Hkp) as Hns. rewrite Hx in Hns.
    simpl in Hns. apply andb_prop in Hns as [Hsp _].
    by apply negb_true_iff in Hsp. }
  assert (Go.isSpace d' = false) as Hd'.
  { simpl in Hdig'. apply andb_prop in Hdig' as [Hd' _].
    by apply isDigit_not_space. }
  unfold Sscanf, record_line. simpl EventType. simpl Key. simpl Value.
  rewrite (runes_ascii _ _ Ha), runes_tab, (runes_ascii _ _ Ha'), runes_tab,
    (runes_ascii _ _ (plain_ascii _ Hkp)), runes_tab,
    (runes_ascii_end _ (plain_ascii _ Hvp)).
  rewrite Hc, (verb_scanUint 64 d ds _ seq) by (done || lia).
  unfold bindE. rewrite Hc'.
  change ((d' :: ds') ++ ?r) with (d' :: (ds' ++ r)).
  rewrite advanceSpace_tab by done.
  change (d' :: (ds' ++ ?r)) with ((d' :: ds') ++ r).
  rewrite (verb_scanUint 8 d' ds' _ t) by (done || lia).
  rewrite Hx. change ((x :: xs) ++ ?r) with (x :: (xs ++ r)).
  rewrite advanceSpace_tab by done.
  change (x :: (xs ++ ?r)) with ((x :: xs) ++ r). rewrite <- Hx.
  rewrite verb_convertString_tab by done.
  destruct v as [|c v]; [done|].
  destruct (codes_nonempty (String c v)) as (y & ys & Hy); [done|].
  assert (Go.isSpace y = false) as Hspy.
  { pose proof (plain_not_space _ Hvp) as Hns. rewrite Hy in Hns.
    simpl in Hns. apply andb_prop in Hns as [Hspy _].
    by apply negb_true_iff in Hspy. }
  rewrite Hy, advanceSpace_tab by done. rewrite <- Hy.
  by rewrite verb_convertString_end.
Qed.


(** The write path, without a failing write, leaves one record for every
    operation. *)
Lemma logged_text os s :
  Logger.pc s = AtRange → Logger.events (Logger.log s) = [] →
  ∃ s', Logger.run (Logger.writeSchedule os) s = Some s'
        ∧ Logger.file (Logger.log s')
          = Logger.file (Logger.log s)
              +:+ log_text (Logger.lastSequence (Logger.log s)) os.
Proof.
  revert s. induction os as [|o os IH]; intros s Hpc Hev.
  - exists s. simpl. by rewrite append_nil_r.
  - destruct s as [[evs errs ls f n] p atts]. simpl in Hpc, Hev. subst.
    set (e := intent o).
    set (s1 := Logger.mkArmed
                 (Logger.mkLogger [] errs ((ls + 1) mod 2 ^ 64)
                    (f +:+ record_text ((ls + 1) mod 2 ^ 64) e) (n + 1 - 1))
                 AtRange (atts ++ [mkAttempt ((ls + 1) mod 2 ^ 64) e WriteOk])).
    destruct (IH s1 eq_refl eq_refl) as (s' & Hrun & Hfile).
    exists s'. split.
    + change (Logger.writeSchedule (o :: os))
        with ([Client o; Write WriteOk] ++ Logger.writeSchedule os).
      rewrite run_app.
      assert (Logger.run [Client o; Write WriteOk]
                (Logger.mkArmed (Logger.mkLogger [] errs ls f n) AtRange atts)
              = Some s1) as ->; [by destruct o|done].
    + rewrite Hfile. simpl. by rewrite append_assoc.
Qed.


Lemma all_bytes_app p a b :
  all_bytes p (a +:+ b) = all_bytes p a && all_bytes p b.
Proof.
  induction a as [|x a IH]; [done|].
  change (p x && all_bytes p (a +:+ b) = p x && all_bytes p a && all_bytes p b).
  by rewrite IH, andb_assoc.
Qed.

(** The line splitter on a line without a newline byte. *)
Lemma rawLines_line line rest cur :
  all_bytes tame_byte line = true →
  Go.rawLines (line +:+ Go.LF +:+ rest) cur
  = string_of_list_ascii (rev cur ++ list_ascii_of_string line)
      :: Go.rawLines rest [].
Proof.
  revert cur. induction line as [|c line IH]; intros cur H.
  - simpl. by rewrite app_nil_r.
  - simpl in H. apply andb_prop in H as [Hc Hl].
    unfold tame_byte in Hc. apply andb_prop in Hc as [Hc _].
    apply negb_true_iff in Hc.
    change (Go.rawLines (String c (line +:+ Go.LF +:+ rest)) cur
            = string_of_list_ascii (rev cur ++ c :: list_ascii_of_string line)
                :: Go.rawLines rest []).
    simpl Go.rawLines. rewrite Hc, (IH _ Hl). simpl.
    by rewrite <- app_assoc.
Qed.

Lemma dropCR_tame line :
  all_bytes tame_byte line = true → Go.dropCR line = line.
Proof.
  induction line as [|c line IH]; [done|]. simpl all_bytes.
  intros [Hc Hl]%andb_prop. unfold tame_byte in Hc.
  apply andb_prop in Hc as [_ Hc]. apply negb_true_iff in Hc.
  destruct line as [|c' line]; simpl.
  - by rewrite Hc.
  - f_equal. by apply IH.
Qed.

Lemma plain_tame c : plain_byte c = true → tame_byte c = true.
Proof.
  unfold plain_byte, tame_byte. intros [_ H]%andb_prop.
  apply negb_true_iff in H.
  destruct (N.eqb_spec (N_of_ascii c) 10) as [E|]; [by rewrite E in H|].
  destruct (N.eqb_spec (N_of_ascii c) 13) as [E|]; [by rewrite E in H|done].
Qed.

Lemma literal_plain v :
  all_bytes literal_byte v = true → all_bytes plain_byte v = true.
Proof.
  apply all_bytes_impl. unfold literal_byte.
  by intros c [[? _]%andb_prop _]%andb_prop.
Qed.

Lemma formatUint_tame n : all_bytes tame_byte (Go.formatUint n) = true.
Proof.
  unfold Go.formatUint, NilZero.string_of_uint.
  assert (all_bytes tame_byte (NilEmpty.string_of_uint (N.to_uint n)) = true).
  { induction (N.to_uint n); simpl; try done. }
  by destruct (N.to_uint n).
Qed.

Lemma plain_op_fields o :
  plain_op o →
  Key (intent o) ≠ EmptyString
  ∧ all_bytes plain_byte (Key (intent o)) = true
  ∧ all_bytes literal_byte (Value (intent o)) = true.
Proof.
  destruct o as [k v|k]; simpl.
  - by intros (? & ? & ? & ?).
  - by intros (? & ?).
Qed.

Lemma record_line_tame seq o :
  plain_op o → all_bytes tame_byte (record_line seq (intent o)) = true.
Proof.
  intros Ho. destruct (plain_op_fields _ Ho) as (_ & Hk & Hv).
  unfold record_line.
  rewrite !all_bytes_app, !formatUint_tame.
  rewrite (all_bytes_impl _ _ _ plain_tame Hk).
  by rewrite (all_bytes_impl _ _ _ plain_tame (literal_plain _ Hv)).
Qed.

(** The scanner delivers the lines of the records, one by one. *)
Lemma ScanLines_log_text os lastSeq :
  Forall plain_op os → Forall short_line (log_lines lastSeq os) →
  Go.ScanLines (log_text lastSeq os) = (log_lines lastSeq os, false).
Proof.
  unfold Go.ScanLines. intros Hos. revert lastSeq.
  induction Hos as [|o os Ho _ IH]; intros lastSeq Hshort; [done|].
  simpl in Hshort. apply Forall_cons in Hshort as [Hs Hshort].
  simpl log_text. rewrite record_text_line, append_assoc.
  rewrite rawLines_line by by apply record_line_tame.
  simpl rev. simpl app. rewrite string_of_list_ascii_of_string.
  simpl Go.scanTokens. unfold short_line in Hs.
  destruct (N.leb_spec Go.MaxScanTokenSize
              (N.of_nat (String.length
                 (record_line ((lastSeq + 1) mod 2 ^ 64) (intent o)))));
    [lia|].
  rewrite (IH _ Hshort). simpl.
  by rewrite dropCR_tame by by apply record_line_tame.
Qed.

Lemma unescape_literal v :
  all_bytes literal_byte v = true → Go.QueryUnescape v = Some v.
Proof.
  induction v as [|c v IH]; [done|]. simpl all_bytes.
  intros [Hc Hv]%andb_prop. unfold literal_byte in Hc.
  apply andb_prop in Hc as [[_ H1]%andb_prop H2].
  apply negb_true_iff in H1, H2.
  change (Go.QueryUnescape (String c v))
    with (if N_of_ascii c =? 37 then
            match v with
            | String h1 (String h2 r') =>
              if Go.ishex (N_of_ascii h1) && Go.ishex (N_of_ascii h2) then
                String (Go.chr (N.lor (N.shiftl (Go.unhex (N_of_ascii h1)) 4)
                                  (Go.unhex (N_of_ascii h2))))
                  <$> Go.QueryUnescape r'
              else None
            | _ => None
            end
          else if N_of_ascii c =? 43 then String (Go.chr 32) <$> Go.QueryUnescape v
          else String c <$> Go.QueryUnescape v).
  by rewrite H1, H2, (IH Hv).
Qed.

(** The loop of [ReadEvents] of the revision with the WaitGroup on the
    lines of such a log: it sends one event for every operation, and the
    events do to a store what the operations do. *)
Lemma readLoop_log_lines os :
  Forall plain_op os →
  ∀ ls e, ls + N.of_nat (length os) < 2 ^ 64 →
  all_bytes literal_byte (Value e) = true →
  ∃ evs ls' e',
    Logger.readLoop (log_lines ls os) ls e = (evs, None, ls', e')
    ∧ ∀ kvs, applyEvents kvs evs = apply_ops kvs os.
Proof.
  induction 1 as [|o os Ho _ IH]; intros ls e Hlt He.
  - by exists [], ls, e.
  - simpl length in Hlt. simpl log_lines.
    rewrite (N.mod_small (ls + 1)) by lia.
    rewrite readLoop_cons. cbv zeta.
    destruct (plain_op_fields _ Ho) as (Hk & Hkp & Hvp).
    assert (∃ e1,
      fst (Sscanf (record_line (ls + 1) (intent o)) e) = e1
      ∧ Sequence e1 = ls + 1
      ∧ all_bytes literal_byte (Value e1) = true
      ∧ ∀ kvs, applyEvent kvs e1 = apply_op kvs o) as (e1 & -> & Hs & Hl & Ha).
    { destruct o as [k v|k]; simpl in *.
      - change (mkEvent 0 EventPut k v) with (mkEvent 0 2 k v).
        rewrite Sscanf_record_line; [|lia|done|done|done|by apply literal_plain].
        destruct Ho as (_ & _ & Hv & _). destruct v; [done|]. eauto.
      - change (mkEvent 0 EventDelete k "") with (mkEvent 0 1 k "").
        rewrite Sscanf_record_line; [|lia|done|done|done|done]. eauto. }
    rewrite Hs. destruct (N.leb_spec (ls + 1) ls); [lia|].
    rewrite (unescape_literal _ Hl).
    assert (setValue (Value e1) e1 = e1) as -> by by destruct e1.
    destruct (IH (ls + 1) e1) as (evs & ls' & e' & Hloop & Hevs); [lia|done|].
    rewrite Hs, Hloop. exists (e1 :: evs), ls', e'. split; [done|].
    intros kvs. simpl. rewrite Ha. apply Hevs.
Qed.


Lemma V1_run_app sched1 sched2 s :
  LoggerV1.run (sched1 ++ sched2) s
  = LoggerV1.run sched1 s ≫= LoggerV1.run sched2.
Proof.
  revert s. induction sched1 as [|a sched1 IH]; intros s; simpl; [done|].
  destruct (LoggerV1.step a s); csimpl; [apply IH|done].
Qed.

Lemma V1_logged_text os s :
  LoggerV1.pc s = AtRange → LoggerV1.events (LoggerV1.log s) = [] →
  ∃ s', LoggerV1.run (LoggerV1.writeSchedule os) s = Some s'
        ∧ LoggerV1.file (LoggerV1.log s')
          = LoggerV1.file (LoggerV1.log s)
              +:+ log_text (LoggerV1.lastSequence (LoggerV1.log s)) os.
Proof.
  revert s. induction os as [|o os IH]; intros s Hpc Hev.
  - exists s. simpl. by rewrite append_nil_r.
  - destruct s as [[evs errs ls f] p atts]. simpl in Hpc, Hev. subst.
    set (e := intent o).
    set (s1 := LoggerV1.mkArmed
                 (LoggerV1.mkLogger [] errs ((ls + 1) mod 2 ^ 64)
                    (f +:+ record_text ((ls + 1) mod 2 ^ 64) e))
                 AtRange (atts ++ [mkAttempt ((ls + 1) mod 2 ^ 64) e WriteOk])).
    destruct (IH s1 eq_refl eq_refl) as (s' & Hrun & Hfile).
    exists s'. split.
    + change (LoggerV1.writeSchedule (o :: os))
        with ([Client o; Write WriteOk] ++ LoggerV1.writeSchedule os).
      rewrite V1_run_app.
      assert (LoggerV1.run [Client o; Write WriteOk]
                (LoggerV1.mkArmed (LoggerV1.mkLogger [] errs ls f) AtRange atts)
              = Some s1) as ->; [by destruct o|done].
    + rewrite Hfile. simpl. by rewrite append_assoc.
Qed.

(** The loop of [ReadEvents] of the earlier revision on the lines of a log
    of puts of plain words. *)
Lemma V1_readLoop_log_lines os :
  Forall plain_op os → Forall is_put os →
  ∀ ls e, ls + N.of_nat (length os) < 2 ^ 64 →
  ∃ evs ls' e',
    LoggerV1.readLoop (log_lines ls os) ls e = (evs, None, ls', e')
    ∧ ∀ kvs, applyEvents kvs evs = apply_ops kvs os.
Proof.
  induction 1 as [|o os Ho _ IH]; intros Hput ls e Hlt.
  - by exists [], ls, e.
  - apply Forall_cons in Hput as [Hp Hput].
    destruct o as [k v|k]; [|done]. destruct Ho as (Hk & Hkp & Hv & Hvp).
    simpl length in Hlt. simpl log_lines.
    rewrite (N.mod_small (ls + 1)) by lia.
    rewrite V1_readLoop_cons.
    change (intent (OpPut k v)) with (mkEvent 0 2 k v).
    rewrite Sscanf_record_line; [|lia|done|done|done|by apply literal_plain].
    destruct v as [|c v]; [done|]. cbv beta iota. simpl Sequence.
    destruct (N.leb_spec (ls + 1) ls); [lia|].
    destruct (IH Hput (ls + 1) (mkEvent (ls + 1) EventPut k (String c v)))
      as (evs & ls' & e' & Hloop & Hevs); [lia|].
    rewrite Hloop. eexists _, ls', e'. split; [done|].
    intros kvs. simpl. apply Hevs.
Qed.

(** X12. Round trip, for operations on plain words: what the write path
    leaves in a new file replays to the store the operations themselves
    lead to, in the revision with the WaitGroup for puts and deletes and
    in the earlier revision for puts. *)
Lemma round_trip_plain_words rev os :
  Forall plain_op os →
  (rev = Earlier → Forall is_put os) →
  N.of_nat (length os) < 2 ^ 64 →
  Forall short_line (log_lines 0 os) →
  loggedOf rev os = Some (log_text 0 os)
  ∧ replayOf rev (log_text 0 os) = (apply_ops Store.empty os, None).
Proof.
  intros Hos Hput Hlen Hshort.
  pose proof (ScanLines_log_text os 0 Hos Hshort) as Hscan.
  destruct rev; split.
  - unfold loggedOf, Logger.logged.
    destruct (logged_text os Logger.fresh eq_refl eq_refl) as (s' & -> & Hf).
    csimpl. by rewrite Hf.
  - destruct (readLoop_log_lines os Hos 0 zeroEvent)
      as (evs & ls & e & Hloop & Hevs); [lia|done|].
    destruct (replay_loop WithWaitGroup _ _ _ _ _ _ _ Hscan Hloop) as [_ H].
    rewrite H. by rewrite Hevs.
  - unfold loggedOf, LoggerV1.logged.
    destruct (V1_logged_text os LoggerV1.fresh eq_refl eq_refl)
      as (s' & -> & Hf).
    csimpl. by rewrite Hf.
  - destruct (V1_readLoop_log_lines os Hos (Hput eq_refl) 0 zeroEvent)
      as (evs & ls & e & Hloop & Hevs); [lia|].
    destruct (replay_loop Earlier _ _ _ _ _ _ _ Hscan Hloop) as [_ H].
    rewrite H. by rewrite Hevs.
Qed.

(** ** The claims on concrete logs and schedules *)

(** C1, at a failing input. A put of x with the value "a b" goes through
    the write path as the line "1\t2\tx\ta b"; replay reads the value back
    as the single word "a", in both revisions, so the store after replay
    differs from the store after the put itself. *)
Theorem C1_round_trip_value_with_space :
  ∃ contents,
    Logger.logged [OpPut "x" "a b"] = Some contents
    ∧ LoggerV1.logged [OpPut "x" "a b"] = Some contents
    ∧ contents = line4 "1" "2" "x" "a b" +:+ Go.LF
    ∧ (∀ rev, replayOf rev contents = (Store.mkKVS {[ "x" := "a" ]}, None))
    ∧ apply_ops Store.empty [OpPut "x" "a b"] = Store.mkKVS {[ "x" := "a b" ]}
    ∧ (∀ rev, fst (replayOf rev contents)
              ≠ apply_ops Store.empty [OpPut "x" "a b"]).
Proof.
  eexists. split; [vm_compute; reflexivity|].
  split_and!; try (vm_compute; reflexivity).
  - intros []; vm_compute; reflexivity.
  - intros []; vm_compute; discriminate.
Qed.

(** The revision with the WaitGroup unescapes on replay a value that was
    written as it is: a plus sign comes back as a space. *)
Lemma round_trip_value_with_plus :
  ∃ contents,
    Logger.logged [OpPut "x" "a+b"] = Some contents
    ∧ replayOf WithWaitGroup contents = (Store.mkKVS {[ "x" := "a b" ]}, None).
Proof. eexists. split; [vm_compute; reflexivity|]. vm_compute; reflexivity. Qed.

(** A put with an empty value after another put: the revision with the
    WaitGroup replays it with the value of the put before it. *)
Lemma round_trip_empty_value :
  ∃ contents,
    Logger.logged [OpPut "x" "42"; OpPut "y" ""] = Some contents
    ∧ Store.M (fst (replayOf WithWaitGroup contents)) !! ("y" : string)
      = Some ("42" : string)
    ∧ Store.M (apply_ops Store.empty [OpPut "x" "42"; OpPut "y" ""])
        !! ("y" : string) = Some (EmptyString : string).
Proof.
  eexists. split; [vm_compute; reflexivity|].
  split; vm_compute; reflexivity.
Qed.

(** C7, at the failing input. The log "1\t2\tx\t42\n2\t1\tx\t\n" is what
    both revisions write for a put and a delete of x.  The revision with
    the WaitGroup replays it to an empty store without an error; the
    earlier revision stops at the second line with a parse error, x still
    in the store: [fmt.Sscanf] finds no word for the last verb. *)
Theorem C7_replay_put_then_delete :
  Logger.logged [OpPut "x" "42"; OpDelete "x"] = Some log_put_delete
  ∧ LoggerV1.logged [OpPut "x" "42"; OpDelete "x"] = Some log_put_delete
  ∧ replayOf WithWaitGroup log_put_delete = (Store.empty, None)
  ∧ replayOf Earlier log_put_delete
    = (Store.mkKVS {[ "x" := "42" ]}, Some (ErrParse Go.ErrEOF)).
Proof. split_and!; vm_compute; reflexivity. Qed.

(** C5, at the failing input. The second line of the log ends after its
    key, and [fmt.Sscanf] reports an error on it.  The revision with the
    WaitGroup does not look at that error: it sends a put of y with the
    value left over from the line before, and replay ends without an
    error.  The earlier revision stops there with a parse error. *)
Theorem C5_malformed_record_replayed :
  snd (Sscanf (line3 "2" "2" "y") (mkEvent 1 2 "x" "42")) = Some Go.ErrEOF
  ∧ readEvents WithWaitGroup log_missing_value
    = ([mkEvent 1 2 "x" "42"; mkEvent 2 2 "y" "42"], None)
  ∧ replayOf WithWaitGroup log_missing_value
    = (Store.mkKVS (<["y" := "42"]> {[ "x" := "42" ]}), None)
  ∧ replayOf Earlier log_missing_value
    = (Store.mkKVS {[ "x" := "42" ]}, Some (ErrParse Go.ErrEOF)).
Proof. split_and!; vm_compute; reflexivity. Qed.

(** C8, the counterexample. A put and a delete with the empty key return
    no error, the put stores the value under the empty key, and both
    revisions write a record for each of the two operations. *)
Lemma C8_empty_key_not_rejected :
  fst (Store.Put "" "v" Store.empty) = None
  ∧ Store.M (snd (Store.Put "" "v" Store.empty)) !! (EmptyString : string)
    = Some ("v" : string)
  ∧ fst (Store.Delete "" Store.empty) = None
  ∧ Logger.logged [OpPut "" "v"; OpDelete ""]
    = Some (line4 "1" "2" "" "v" +:+ Go.LF +:+ line4 "2" "1" "" "" +:+ Go.LF)
  ∧ LoggerV1.logged [OpPut "" "v"; OpDelete ""]
    = Some (line4 "1" "2" "" "v" +:+ Go.LF +:+ line4 "2" "1" "" "" +:+ Go.LF).
Proof. split_and!; vm_compute; reflexivity. Qed.

(** C8, as amended. [Put] and [Delete] take the empty key as any other key
    and return no error, and in both revisions a put and a delete with the
    empty key, handed to a newly armed logger, are each written to the
    log as a record with an empty key field. *)
Theorem C8_empty_key_accepted (rev : revision) (value contents : string)
    (kvs : Store.KVS) :
  Store.Put "" value kvs
  = (None, Store.mkKVS (<[EmptyString := value]> (Store.M kvs)))
  ∧ Store.Delete "" kvs = (None, Store.mkKVS (delete EmptyString (Store.M kvs)))
  ∧ o_file <$> runFrom rev 0 contents
                 [Client (OpPut "" value); Write WriteOk;
                  Client (OpDelete ""); Write WriteOk]
    = Some ((contents +:+ record_text 1 (mkEvent 0 EventPut "" value))
              +:+ record_text 2 (mkEvent 0 EventDelete "" "")).
Proof. split_and!; [done|done|]. by destruct rev. Qed.

(** C4, the counterexample. In the revision with the WaitGroup, three puts
    are handed to the logger and the writes for the first two fail while
    nobody receives from [Err()]: the worker has made a pass for the first
    two events and waits at the send of the second error; the third event
    stays in the channel, and no schedule without a receive from [Err()]
    brings a pass for it. *)
Lemma C4_second_failure_blocks :
  ∃ s,
    Logger.run sched_two_failures Logger.fresh = Some s
    ∧ Logger.pc s = AtSend
    ∧ Logger.errors (Logger.log s) = [ErrWrite]
    ∧ Logger.events (Logger.log s) = [intent (OpPut "c" "3")]
    ∧ map a_event (Logger.attempts s)
      = [intent (OpPut "a" "1"); intent (OpPut "b" "2")]
    ∧ (∀ w, Logger.writeStep w s = None)
    ∧ Logger.sendStep s = None
    ∧ ∀ sched s', Forall (λ a, a ≠ RecvErr) sched →
                  Logger.run sched s = Some s' →
                  Logger.attempts s' = Logger.attempts s.
Proof.
  eexists. split; [vm_compute; reflexivity|].
  split_and!; try reflexivity.
  intros sched s' Hsched Hrun.
  by eapply worker_blocked in Hrun as [-> _].
Qed.

(** The earlier revision on the schedule of the counterexample: the worker
    has returned after the first failed write, and the second write of the
    schedule cannot take place. *)
Lemma V1_first_failure_ends_worker :
  (∃ s, LoggerV1.run (take 5 sched_two_failures) LoggerV1.fresh = Some s
        ∧ LoggerV1.pc s = Returned
        ∧ length (LoggerV1.attempts s) = 1%nat
        ∧ length (LoggerV1.events (LoggerV1.log s)) = 2%nat)
  ∧ LoggerV1.run sched_two_failures LoggerV1.fresh = None.
Proof.
  split; [eexists; split; [vm_compute; reflexivity|]|]; by vm_compute.
Qed.

(** ** The theorems at work on the sample logs and schedules *)

(** C2 on the log whose second record repeats the number 1: both
    revisions send the put of x and then the out-of-order error. *)
Lemma C2_out_of_order_aborts_witness :
  readEvents WithWaitGroup log_repeated_number
  = ([mkEvent 1 2 "x" "42"], Some ErrOutOfSequence)
  ∧ readEvents Earlier log_repeated_number
    = ([mkEvent 1 2 "x" "42"], Some ErrOutOfSequence).
Proof.
  split.
  - refine (proj1 (C2_out_of_order_aborts WithWaitGroup log_repeated_number
                     [] (line4 "1" "2" "x" "42") (line4 "1" "2" "y" "7") []
                     false [mkEvent 1 2 "x" "42"] 1 (mkEvent 1 2 "x" "42")
                     (mkEvent 1 2 "y" "7") _ _ _ _));
      vm_compute; (reflexivity || discriminate).
  - refine (proj1 (C2_out_of_order_aborts Earlier log_repeated_number
                     [] (line4 "1" "2" "x" "42") (line4 "1" "2" "y" "7") []
                     false [mkEvent 1 2 "x" "42"] 1 (mkEvent 1 2 "x" "42")
                     (mkEvent 1 2 "y" "7") _ _ _ _));
      vm_compute; (reflexivity || discriminate).
Defined.

(** C9 on the log with the numbers 1 and 3: both revisions send the two
    puts and no error. *)
Lemma C9_gaps_are_accepted_witness :
  readEvents WithWaitGroup log_with_gap
  = ([mkEvent 1 2 "x" "42"; mkEvent 3 2 "y" "7"], None)
  ∧ readEvents Earlier log_with_gap
    = ([mkEvent 1 2 "x" "42"; mkEvent 3 2 "y" "7"], None).
Proof.
  split.
  - refine (proj1 (C9_gaps_are_accepted WithWaitGroup log_with_gap
                     [line4 "1" "2" "x" "42"; line4 "3" "2" "y" "7"]
                     [mkEvent 1 2 "x" "42"; mkEvent 3 2 "y" "7"]
                     [mkEvent 1 2 "x" "42"; mkEvent 3 2 "y" "7"] _ _ _ _)).
    + vm_compute; reflexivity.
    + repeat (constructor; [vm_compute; reflexivity|]). constructor.
    + repeat (constructor; [vm_compute; reflexivity|]). constructor.
    + vm_compute. by split_and!.
  - refine (proj1 (C9_gaps_are_accepted Earlier log_with_gap
                     [line4 "1" "2" "x" "42"; line4 "3" "2" "y" "7"]
                     [mkEvent 1 2 "x" "42"; mkEvent 3 2 "y" "7"]
                     [mkEvent 1 2 "x" "42"; mkEvent 3 2 "y" "7"] _ _ _ _)).
    + vm_compute; reflexivity.
    + repeat (constructor; [vm_compute; reflexivity|]). constructor.
    + repeat (constructor; [vm_compute; reflexivity|]). constructor.
    + vm_compute. by split_and!.
Defined.

(** A gap before a delete record: the revision with the WaitGroup replays
    the log to the end, the earlier revision stops at the delete record as
    it does without a gap. *)
Lemma gap_before_delete_replays :
  replayOf WithWaitGroup log_gap_before_delete = (Store.empty, None)
  ∧ snd (replayOf Earlier log_gap_before_delete)
    = Some (ErrParse Go.ErrEOF).
Proof. split; vm_compute; reflexivity. Qed.

(** C3 on a schedule of three operations: the passes carry the numbers
    1, 2 and 3. *)
Lemma C3_sequence_numbers_witness :
  ∃ o, runFrom WithWaitGroup 0 EmptyString sched_three_writes = Some o
       ∧ map a_seq (o_attempts o) = [1; 2; 3]
       ∧ map a_event (o_attempts o) ++ o_events o
         = intents sched_three_writes.
Proof.
  eexists. split; [vm_compute; reflexivity|].
  refine (let H := C3_sequence_numbers WithWaitGroup sched_three_writes _ _ _
          in conj (proj1 (proj2 H)) (proj1 (proj2 (proj2 H))));
    vm_compute; reflexivity.
Defined.

(** In the revision with the WaitGroup a pass whose write fails keeps its
    sequence number: the records the file holds afterwards jump from 1
    to 3. *)
Lemma failed_write_leaves_gap :
  o_file <$> runFrom WithWaitGroup 0 EmptyString
               [Client (OpPut "a" "1"); Client (OpPut "b" "2");
                Client (OpPut "c" "3"); Write WriteOk; Write (WriteFail 0);
                SendErr; Write WriteOk]
  = Some (line4 "1" "2" "a" "1" +:+ Go.LF +:+ line4 "3" "2" "c" "3" +:+ Go.LF).
Proof. vm_compute; reflexivity. Qed.

(** C4, as amended, on three puts that wait in the channel, the writes for
    the first two failing: the worker makes a pass for each of the three. *)
Lemma C4_worker_goes_on_witness :
  ∃ s' new,
    Logger.run (passes [WriteFail 0; WriteFail 0; WriteOk]) three_queued
    = Some s'
    ∧ Logger.attempts s' = Logger.attempts three_queued ++ new
    ∧ map a_event new = Logger.events (Logger.log three_queued)
    ∧ map a_result new = [WriteFail 0; WriteFail 0; WriteOk]
    ∧ Logger.events (Logger.log s') = []
    ∧ Logger.errors (Logger.log s') = []
    ∧ Logger.pc s' = AtRange.
Proof.
  exact (C4_worker_goes_on three_queued [WriteFail 0; WriteFail 0; WriteOk]
           eq_refl eq_refl eq_refl).
Defined.

(** The round trip at work: a put and a delete of x, in the revision with
    the WaitGroup. *)
Lemma round_trip_put_delete :
  loggedOf WithWaitGroup [OpPut "x" "42"; OpDelete "x"] = Some log_put_delete
  ∧ replayOf WithWaitGroup log_put_delete = (Store.empty, None).
Proof.
  refine (round_trip_plain_words WithWaitGroup
            [OpPut "x" "42"; OpDelete "x"] _ _ _ _).
  - repeat constructor; done.
  - done.
  - by vm_compute.
  - repeat constructor; by vm_compute.
Defined.

(** ** More of the store *)

(** X1. A put followed by a get of the same key returns the value that was
    put and no error, whatever the store held before; the put itself
    returns no error. *)
Lemma put_then_get (s : Store.KVS) (k v : string) :
  fst (Store.Put k v s) = None
  ∧ fst (Store.Get k (snd (Store.Put k v s))) = (v, None).
Proof.
  split; [done|]. unfold Store.Get, Store.Put. simpl.
  by rewrite lookup_insert_eq.
Qed.

(** X2. A delete returns no error whether the key is there or not, and a get
    of the key afterwards returns the empty string and the error for a
    missing key. *)
Lemma delete_then_get (s : Store.KVS) (k : string) :
  fst (Store.Delete k s) = None
  ∧ fst (Store.Get k (snd (Store.Delete k s)))
    = (EmptyString, Some Store.ErrorNoSuchKey).
Proof.
  split; [done|]. unfold Store.Get, Store.Delete. simpl.
  by rewrite lookup_delete_eq.
Qed.

(** X3. A delete of a key the store does not hold leaves the store as it is. *)
Lemma delete_missing_key (s : Store.KVS) (k : string) :
  snd (fst (Store.Get k s)) = Some Store.ErrorNoSuchKey →
  Store.Delete k s = (None, s).
Proof.
  unfold Store.Get, Store.Delete. destruct s as [m]. simpl.
  destruct (m !! k) eqn:Hk; [done|]. intros _.
  by rewrite delete_id.
Qed.

Lemma delete_missing_key_witness :
  Store.Delete "a" (snd (Store.Put "b" "1" Store.empty))
  = (None, snd (Store.Put "b" "1" Store.empty)).
Proof.
  apply (delete_missing_key (snd (Store.Put "b" "1" Store.empty)) "a").
  reflexivity.
Defined.

(** X4. Of two operations on the same key, one after the other, the second
    decides: the store is the one the second operation alone leads to. A
    put repeated leaves the store as the first put left it. *)
Lemma last_op_on_key_wins (s : Store.KVS) (o1 o2 : op) :
  op_key o1 = op_key o2 →
  apply_op (apply_op s o1) o2 = apply_op s o2.
Proof.
  destruct s as [m], o1 as [k1 v1|k1], o2 as [k2 v2|k2]; simpl; intros ->;
    f_equal.
  - apply insert_insert_eq.
  - apply delete_insert_eq.
  - apply insert_delete_eq.
  - apply delete_delete_eq.
Qed.

Lemma last_op_on_key_wins_witness :
  apply_op (apply_op Store.empty (OpPut "a" "1")) (OpPut "a" "1")
  = apply_op Store.empty (OpPut "a" "1").
Proof.
  apply (last_op_on_key_wins Store.empty (OpPut "a" "1") (OpPut "a" "1")).
  reflexivity.
Defined.

(** X5. Operations on different keys can be swapped: the store is the same in
    either order. *)
Lemma ops_on_distinct_keys_commute (s : Store.KVS) (o1 o2 : op) :
  op_key o1 ≠ op_key o2 →
  apply_op (apply_op s o1) o2 = apply_op (apply_op s o2) o1.
Proof.
  destruct s as [m], o1 as [k1 v1|k1], o2 as [k2 v2|k2]; simpl; intros Hk;
    f_equal.
  - by apply insert_insert_ne.
  - by rewrite delete_insert_ne.
  - by rewrite delete_insert_ne.
  - apply delete_delete.
Qed.

Lemma ops_on_distinct_keys_commute_witness :
  apply_op (apply_op Store.empty (OpPut "a" "1")) (OpDelete "b")
  = apply_op (apply_op Store.empty (OpDelete "b")) (OpPut "a" "1").
Proof.
  apply (ops_on_distinct_keys_commute Store.empty (OpPut "a" "1")
           (OpDelete "b")).
  simpl. discriminate.
Defined.

(** ** More of replay *)

Lemma readLoop_sends_ascending rev lines :
  ∀ lastSeq e evs err ls ef,
    readLoopOf rev lines lastSeq e = (evs, err, ls, ef) →
    ascending lastSeq evs.
Proof.
  induction lines as [|line lines IH]; intros lastSeq e evs err ls ef H.
  - destruct rev; simpl in H; by simplify_eq.
  - destruct rev; unfold readLoopOf in *; loop_pass H; simplify_eq;
      try done; simpl; (split; [by apply N.leb_gt|]); eapply IH; eauto.
Qed.

Lemma readEvents_ascending rev contents :
  ascending 0 (fst (readEvents rev contents)).
Proof.
  destruct (Go.ScanLines contents) as [lines tooLong] eqn:Hscan.
  destruct (readLoopOf rev lines 0 zeroEvent) as [[[evs err] ls] ef] eqn:Hloop.
  destruct (replay_loop rev _ _ _ _ _ _ _ Hscan Hloop) as [-> _].
  simpl. by eapply readLoop_sends_ascending.
Qed.

Lemma ascending_above evs :
  ∀ lastSeq, ascending lastSeq evs →
  Forall (λ ev, lastSeq < Sequence ev) evs.
Proof.
  induction evs as [|ev evs IH]; intros lastSeq Hasc; [done|].
  destruct Hasc as [Hlt Hasc]. constructor; [done|].
  eapply Forall_impl; [by apply IH|]. intros x Hx. simpl in Hx. lia.
Qed.

Lemma ascending_below_last evs :
  ∀ lastSeq, ascending lastSeq evs →
  Forall (λ ev, Sequence ev
                ≤ match last evs with Some x => Sequence x | None => lastSeq end)
    evs
  ∧ lastSeq ≤ match last evs with Some x => Sequence x | None => lastSeq end.
Proof.
  induction evs as [|ev evs IH]; intros lastSeq Hasc; [done|].
  destruct Hasc as [Hlt Hasc]. destruct (IH _ Hasc) as [Hall Hle].
  rewrite <- (last_cons_default Sequence lastSeq ev evs).
  split; [|lia]. by constructor.
Qed.

(** X6. The events a replay sends carry sequence numbers that go up from
    event to event, whatever the file holds and whether or not the replay
    ends with an error: every number is above 0 and none is above the
    number of the last event sent. *)
Lemma replayed_events_ascending (rev : revision) (contents : string) :
  ascending 0 (fst (readEvents rev contents))
  ∧ Forall (λ ev, 0 < Sequence ev
                  ≤ last_sequence (fst (readEvents rev contents)))
      (fst (readEvents rev contents)).
Proof.
  pose proof (readEvents_ascending rev contents) as Hasc.
  split; [done|].
  destruct (ascending_below_last _ _ Hasc) as [Hbelow _].
  pose proof (ascending_above _ _ Hasc) as Habove.
  apply Forall_forall. intros ev Hev.
  eapply Forall_forall in Hbelow; [|done].
  eapply Forall_forall in Habove; [|done].
  unfold last_sequence. simpl in *. lia.
Qed.

(** The earlier revision on the log whose second record ends after its
    key. *)
Lemma V1_malformed_record_aborts_witness :
  readEvents Earlier log_missing_value
  = ([mkEvent 1 2 "x" "42"], Some (ErrParse Go.ErrEOF)).
Proof.
  refine (proj1 (V1_malformed_record_aborts log_missing_value
                   [line4 "1" "2" "x" "42"] (line3 "2" "2" "y") [] false
                   [mkEvent 1 2 "x" "42"] 1 (mkEvent 1 2 "x" "42")
                   (mkEvent 2 2 "y" "42") Go.ErrEOF _ _ _));
    vm_compute; reflexivity.
Defined.

(** The scanner on a file that starts with a line: a line of
    [MaxScanTokenSize] bytes or more stops it with [ErrTooLong]. *)
Lemma ScanLines_line line rest :
  all_bytes tame_byte line = true →
  Go.ScanLines (line +:+ Go.LF +:+ rest) =
  if Go.MaxScanTokenSize <=? N.of_nat (String.length line) then ([], true)
  else let '(toks, tooLong) := Go.ScanLines rest in (line :: toks, tooLong).
Proof.
  intros Hline. unfold Go.ScanLines. rewrite rawLines_line by done.
  simpl rev. simpl app. rewrite string_of_list_ascii_of_string.
  simpl Go.scanTokens. by rewrite dropCR_tame.
Qed.

Lemma ScanLines_log_text_then os tail :
  Forall plain_op os →
  ∀ lastSeq, Forall short_line (log_lines lastSeq os) →
  Go.ScanLines (log_text lastSeq os +:+ tail) =
  let '(toks, tooLong) := Go.ScanLines tail in
  (log_lines lastSeq os ++ toks, tooLong).
Proof.
  induction 1 as [|o os Ho _ IH]; intros lastSeq Hshort.
  - change (log_text lastSeq [] +:+ tail) with tail.
    by destruct (Go.ScanLines tail).
  - simpl in Hshort. apply Forall_cons in Hshort as [Hs Hshort].
    simpl log_text. rewrite record_text_line, !append_assoc.
    rewrite ScanLines_line by by apply record_line_tame.
    unfold short_line in Hs.
    destruct (N.leb_spec Go.MaxScanTokenSize
                (N.of_nat (String.length
                   (record_line ((lastSeq + 1) mod 2 ^ 64) (intent o)))));
      [lia|].
    rewrite (IH _ Hshort). simpl. by destruct (Go.ScanLines tail).
Qed.

Lemma log_text_app os1 os2 :
  ∀ ls, ls + N.of_nat (length os1) < 2 ^ 64 →
  log_text ls (os1 ++ os2)
  = log_text ls os1 +:+ log_text (ls + N.of_nat (length os1)) os2.
Proof.
  induction os1 as [|o os1 IH]; intros ls Hlt.
  - simpl. by rewrite N.add_0_r.
  - simpl length in Hlt. simpl app. simpl log_text.
    rewrite (N.mod_small (ls + 1)) by lia.
    rewrite IH by lia. rewrite append_assoc.
    by replace (ls + 1 + N.of_nat (length os1))
      with (ls + N.of_nat (S (length os1))) by lia.
Qed.

Lemma log_lines_app os1 os2 :
  ∀ ls, ls + N.of_nat (length os1) < 2 ^ 64 →
  log_lines ls (os1 ++ os2)
  = log_lines ls os1 ++ log_lines (ls + N.of_nat (length os1)) os2.
Proof.
  induction os1 as [|o os1 IH]; intros ls Hlt.
  - simpl. by rewrite N.add_0_r.
  - simpl length in Hlt. simpl app. simpl log_lines.
    rewrite (N.mod_small (ls + 1)) by lia.
    rewrite IH by lia.
    by replace (ls + 1 + N.of_nat (length os1))
      with (ls + N.of_nat (S (length os1))) by lia.
Qed.

Lemma length_append (a b : string) :
  String.length (a +:+ b) = (String.length a + String.length b)%nat.
Proof. induction a as [|c a IH]; simpl; [done|]. by rewrite IH. Qed.

Lemma record_line_tame_fields seq e :
  all_bytes tame_byte (Key e) = true → all_bytes tame_byte (Value e) = true →
  all_bytes tame_byte (record_line seq e) = true.
Proof.
  intros Hk Hv. unfold record_line.
  by rewrite !all_bytes_app, !formatUint_tame, Hk, Hv.
Qed.

Lemma loggedOf_text rev os : loggedOf rev os = Some (log_text 0 os).
Proof.
  destruct rev; unfold loggedOf, Logger.logged, LoggerV1.logged.
  - destruct (logged_text os Logger.fresh eq_refl eq_refl) as (s' & -> & Hf).
    csimpl. by rewrite Hf.
  - destruct (V1_logged_text os LoggerV1.fresh eq_refl eq_refl)
      as (s' & -> & Hf).
    csimpl. by rewrite Hf.
Qed.

Lemma readLoopOf_log_lines rev os :
  Forall plain_op os → (rev = Earlier → Forall is_put os) →
  ∀ ls e, ls + N.of_nat (length os) < 2 ^ 64 →
  all_bytes literal_byte (Value e) = true →
  ∃ evs ls' e',
    readLoopOf rev (log_lines ls os) ls e = (evs, None, ls', e')
    ∧ ∀ kvs, applyEvents kvs evs = apply_ops kvs os.
Proof.
  intros Hos Hput ls e Hlt He. destruct rev; simpl.
  - by apply readLoop_log_lines.
  - apply V1_readLoop_log_lines; auto.
Qed.

(** X9. A put whose value has 65536 bytes or more is written to the log as
    one line, and a start-up on that log ends with a read failure: the
    scanner stops at the line, so the puts and deletes logged before it
    are replayed and the long put and whatever was logged after it are
    not. *)
Lemma long_value_stops_replay (rev : revision) (os : list op) (k v : string)
    (later : list op) :
  Forall plain_op os →
  (rev = Earlier → Forall is_put os) →
  N.of_nat (length os) < 2 ^ 64 →
  Forall short_line (log_lines 0 os) →
  all_bytes tame_byte k = true →
  all_bytes tame_byte v = true →
  Go.MaxScanTokenSize ≤ N.of_nat (String.length v) →
  loggedOf rev (os ++ OpPut k v :: later)
  = Some (log_text 0 (os ++ OpPut k v :: later))
  ∧ replayOf rev (log_text 0 (os ++ OpPut k v :: later))
    = (apply_ops Store.empty os, Some ErrReadFailure).
Proof.
  intros Hos Hput Hlen Hshort Hk Hv Hlong. split; [apply loggedOf_text|].
  rewrite log_text_app by lia. simpl log_text.
  rewrite record_text_line, !append_assoc.
  set (line := record_line _ _). set (rest := log_text _ later).
  assert (Go.ScanLines (log_text 0 os +:+ line +:+ Go.LF +:+ rest)
          = (log_lines 0 os, true)) as Hscan.
  { rewrite ScanLines_log_text_then by done.
    rewrite ScanLines_line by by apply record_line_tame_fields.
    destruct (N.leb_spec Go.MaxScanTokenSize
                (N.of_nat (String.length line))) as [_|Hlt].
    - by rewrite app_nil_r.
    - unfold line, record_line in Hlt. rewrite !length_append in Hlt.
      simpl in Hlt. lia. }
  destruct (readLoopOf_log_lines rev os Hos Hput 0 zeroEvent)
    as (evs & ls & e & Hloop & Hevs); [lia|done|].
  destruct (replay_loop rev _ _ _ _ _ _ _ Hscan Hloop) as [_ H].
  rewrite H. by rewrite Hevs.
Qed.

Lemma long_value_stops_replay_witness :
  replayOf WithWaitGroup (log_text 0 [OpPut "x" "42"; OpPut "y" long_value])
  = (apply_ops Store.empty [OpPut "x" "42"], Some ErrReadFailure).
Proof.
  refine (proj2 (long_value_stops_replay WithWaitGroup [OpPut "x" "42"]
                   "y" long_value [] _ _ _ _ _ _ _)).
  - repeat constructor; done.
  - done.
  - by vm_compute.
  - repeat constructor; by vm_compute.
  - reflexivity.
  - vm_compute; reflexivity.
  - by vm_compute.
Defined.

(** X8. A record whose kind is neither that of a delete nor that of a put is
    read as any other record: replay sends its event without an error, and
    the event changes nothing in the store. *)
Lemma unknown_kind_is_skipped (rev : revision) (seq t : N) (k v : string) :
  0 < seq < 2 ^ 64 → t < 2 ^ 8 →
  t ≠ EventDelete → t ≠ EventPut →
  k ≠ EmptyString → all_bytes plain_byte k = true →
  v ≠ EmptyString → all_bytes literal_byte v = true →
  short_line (record_line seq (mkEvent 0 t k v)) →
  readEvents rev (record_text seq (mkEvent 0 t k v))
  = ([mkEvent seq t k v], None)
  ∧ replayOf rev (record_text seq (mkEvent 0 t k v)) = (Store.empty, None).
Proof.
  intros [Hpos Hseq] Ht Hd Hp Hk Hkp Hv Hvl Hshort.
  pose proof (literal_plain _ Hvl) as Hvp.
  assert (Go.ScanLines (record_text seq (mkEvent 0 t k v))
          = ([record_line seq (mkEvent 0 t k v)], false)) as Hscan.
  { rewrite record_text_line.
    rewrite <- (append_nil_r Go.LF), ScanLines_line.
    - unfold short_line in Hshort.
      by destruct (N.leb_spec Go.MaxScanTokenSize
               (N.of_nat (String.length (record_line seq (mkEvent 0 t k v)))));
        [lia|].
    - apply record_line_tame_fields; simpl.
      + apply (all_bytes_impl _ _ _ plain_tame Hkp).
      + apply (all_bytes_impl _ _ _ plain_tame Hvp). }
  assert (Sscanf (record_line seq (mkEvent 0 t k v)) zeroEvent
          = (mkEvent seq t k v, None)) as Hline.
  { rewrite Sscanf_record_line by done. by destruct v. }
  assert (readLoopOf rev [record_line seq (mkEvent 0 t k v)] 0 zeroEvent
          = ([mkEvent seq t k v], None, seq, mkEvent seq t k v)) as Hloop.
  { destruct rev; unfold readLoopOf.
    - rewrite readLoop_cons, Hline. cbv zeta. simpl fst. simpl Sequence.
      destruct (N.leb_spec seq 0); [lia|].
      simpl Value. by rewrite (unescape_literal _ Hvl).
    - rewrite V1_readLoop_cons, Hline. cbv iota beta. simpl Sequence.
      destruct (N.leb_spec seq 0); [lia|done]. }
  destruct (replay_loop rev _ _ _ _ _ _ _ Hscan Hloop) as [-> ->].
  split; [done|]. f_equal. unfold applyEvents, applyEvent. simpl.
  destruct (N.eqb_spec t EventDelete); [done|].
  by destruct (N.eqb_spec t EventPut).
Qed.

Lemma unknown_kind_is_skipped_witness :
  replayOf Earlier (record_text 1 (mkEvent 0 7 "x" "42")) = (Store.empty, None).
Proof.
  refine (proj2 (unknown_kind_is_skipped Earlier 1 7 "x" "42" _ _ _ _ _ _ _ _ _));
    try done; try (by vm_compute).
Defined.

(** ** Restart *)

Lemma readLoopOf_last rev lines :
  ∀ lastSeq e evs err ls ef,
    readLoopOf rev lines lastSeq e = (evs, err, ls, ef) →
    ls = match last evs with Some ev => Sequence ev | None => lastSeq end.
Proof.
  induction lines as [|line lines IH]; intros lastSeq e evs err ls ef H.
  - destruct rev; simpl in H; by simplify_eq.
  - destruct rev; unfold readLoopOf in *; loop_pass H; simplify_eq;
      try done;
      match goal with
      | Hr : _ = (?l, _, _, _) |- _ =>
        apply IH in Hr; rewrite Hr; simpl Sequence;
        by rewrite <- (last_cons_default Sequence)
      end.
Qed.

(** The logger a start-up leaves armed: [lastSequence] is the number of the
    last event the replay sent. *)
Lemma runAfter_runFrom rev contents sched :
  runAfter rev contents sched
  = runFrom rev (last_sequence (fst (readEvents rev contents))) contents sched.
Proof.
  destruct (Go.ScanLines contents) as [lines tooLong] eqn:Hscan.
  destruct (readLoopOf rev lines 0 zeroEvent) as [[[evs err] ls] ef] eqn:Hloop.
  pose proof (readLoopOf_last _ _ _ _ _ _ _ _ Hloop) as Hls.
  destruct rev; unfold runAfter, runFrom, readEvents.
  - unfold Logger.startup.
    rewrite (ReadEvents_loop _ _ _ _ _ _ _ Hscan Hloop). simpl.
    unfold last_sequence. by rewrite <- Hls.
  - unfold LoggerV1.startup.
    rewrite (V1_ReadEvents_loop _ _ _ _ _ _ _ Hscan Hloop). simpl.
    unfold last_sequence. by rewrite <- Hls.
Qed.

(** X14. After a start-up on any file, with or without an error from the
    replay, the worker numbers its passes from the number of the last
    event the replay sent: no event of the replay has a number above
    that, so the records appended carry numbers above those of all events
    replayed, and they are appended to what the file held. *)
Lemma restart_numbers_above_replayed (rev : revision) (contents : string)
    (sched : list action) (o : observed) :
  runAfter rev contents sched = Some o →
  last_sequence (fst (readEvents rev contents))
    + N.of_nat (length (o_attempts o)) < 2 ^ 64 →
  map a_seq (o_attempts o)
  = map (λ i, last_sequence (fst (readEvents rev contents)) + N.of_nat i)
      (seq 1 (length (o_attempts o)))
  ∧ Forall (λ a, Forall (λ ev, Sequence ev < a_seq a)
                   (fst (readEvents rev contents)))
      (o_attempts o)
  ∧ o_file o = written contents (o_attempts o).
Proof.
  rewrite runAfter_runFrom. intros Hrun Hlt.
  destruct (ascending_below_last _ _ (readEvents_ascending rev contents))
    as [Hbelow _].
  fold (last_sequence (fst (readEvents rev contents))) in Hbelow.
  set (ls := last_sequence (fst (readEvents rev contents))) in *.
  apply runFrom_follows in Hrun as (_ & _ & Hnum & _ & Hfile).
  simpl in Hnum, Hfile.
  destruct (numbered_closed_form _ _ Hnum Hlt) as [Hseq _].
  split_and!; [done| |done].
  apply Forall_forall. intros a Ha.
  assert (In (a_seq a) (map a_seq (o_attempts o))) as Hin.
  { apply in_map. by apply list_elem_of_In. }
  rewrite Hseq in Hin. apply in_map_iff in Hin as (i & Hi & Hin).
  apply in_seq in Hin.
  eapply Forall_impl; [exact Hbelow|]. intros ev Hev. simpl in Hev. lia.
Qed.

Lemma restart_numbers_above_replayed_witness :
  ∃ o, runAfter Earlier log_with_gap sched_three_writes = Some o
       ∧ map a_seq (o_attempts o) = [4; 5; 6].
Proof.
  eexists. split; [vm_compute; reflexivity|].
  refine (proj1 (restart_numbers_above_replayed Earlier log_with_gap
                   sched_three_writes _ _ _)).
  - vm_compute; reflexivity.
  - by vm_compute.
Defined.

Lemma readLoopOf_log_lines_last rev os :
  Forall plain_op os → (rev = Earlier → Forall is_put os) →
  ∀ ls e, ls + N.of_nat (length os) < 2 ^ 64 →
  all_bytes literal_byte (Value e) = true →
  ∃ evs e',
    readLoopOf rev (log_lines ls os) ls e
    = (evs, None, ls + N.of_nat (length os), e').
Proof.
  intros Hos Hput.
  assert (Forall (λ o, rev = Earlier → is_put o) os) as Hput'.
  { apply Forall_forall. intros o Ho Hrev.
    specialize (Hput Hrev). by eapply Forall_forall in Hput. }
  clear Hput. induction Hos as [|o os Ho _ IH]; intros ls e Hlt He.
  - exists [], e. destruct rev; simpl; by rewrite N.add_0_r.
  - apply Forall_cons in Hput' as [Hp Hput'].
    simpl length in Hlt. simpl log_lines.
    rewrite (N.mod_small (ls + 1)) by lia.
    destruct (plain_op_fields _ Ho) as (Hk & Hkp & Hvp).
    assert (∃ e1,
      Sscanf (record_line (ls + 1) (intent o)) e
      = (e1, match rev, o with
             | WithWaitGroup, OpDelete _ => Some Go.ErrEOF
             | _, _ => None
             end)
      ∧ Sequence e1 = ls + 1
      ∧ all_bytes literal_byte (Value e1) = true) as (e1 & Hscan & Hs & Hl).
    { destruct o as [k v|k]; simpl in *.
      - change (mkEvent 0 EventPut k v) with (mkEvent 0 2 k v).
        rewrite Sscanf_record_line; [|lia|done|done|done|by apply literal_plain].
        destruct Ho as (_ & _ & Hv & _). destruct v; [done|].
        destruct rev; eauto.
      - destruct rev; [|by destruct (Hp eq_refl)].
        change (mkEvent 0 EventDelete k "") with (mkEvent 0 1 k "").
        rewrite Sscanf_record_line; [|lia|done|done|done|done]. eauto. }
    destruct (IH Hput' (ls + 1) e1) as (evs & e' & Hloop); [lia|done|].
    replace (ls + 1 + N.of_nat (length os))
      with (ls + N.of_nat (S (length os))) in Hloop by lia.
    destruct rev; unfold readLoopOf in *.
    + rewrite readLoop_cons, Hscan. cbv zeta. simpl fst. rewrite Hs.
      destruct (N.leb_spec (ls + 1) ls); [lia|].
      rewrite (unescape_literal _ Hl).
      assert (setValue (Value e1) e1 = e1) as -> by by destruct e1.
      rewrite Hs, Hloop. eauto.
    + rewrite V1_readLoop_cons, Hscan.
      destruct o; [|by destruct (Hp eq_refl)].
      rewrite Hs. destruct (N.leb_spec (ls + 1) ls); [lia|].
      rewrite Hloop. eauto.
Qed.

(** X13. A restart in the middle changes nothing in the file: when the
    operations [os1] have gone through the write path of a logger on a new
    file, a start-up on that file followed by the operations [os2] leaves
    the file that the operations [os1 ++ os2] leave when they go through
    one logger; the numbers of the records go on where they had stopped. *)
Lemma restart_is_transparent (rev : revision) (os1 os2 : list op) :
  Forall plain_op os1 →
  (rev = Earlier → Forall is_put os1) →
  N.of_nat (length os1) < 2 ^ 64 →
  Forall short_line (log_lines 0 os1) →
  ∃ contents,
    loggedOf rev os1 = Some contents
    ∧ loggedAfter rev contents os2 = loggedOf rev (os1 ++ os2)
    ∧ loggedOf rev (os1 ++ os2) = Some (log_text 0 (os1 ++ os2)).
Proof.
  intros Hos Hput Hlen Hshort. exists (log_text 0 os1).
  split; [apply loggedOf_text|]. split; [|apply loggedOf_text].
  rewrite loggedOf_text.
  pose proof (ScanLines_log_text os1 0 Hos Hshort) as Hscan.
  destruct (readLoopOf_log_lines_last rev os1 Hos Hput 0 zeroEvent)
    as (evs & e' & Hloop); [lia|done|].
  rewrite N.add_0_l in Hloop.
  rewrite log_text_app by lia. rewrite N.add_0_l.
  unfold loggedAfter, runAfter. destruct rev.
  - unfold Logger.startup.
    rewrite (ReadEvents_loop _ _ _ _ _ _ _ Hscan Hloop). simpl snd.
    destruct (logged_text os2
                (Logger.Run (Logger.mkLogger [] [] (N.of_nat (length os1))
                               (log_text 0 os1) 0%Z)) eq_refl eq_refl)
      as (s' & -> & Hf).
    simpl. by rewrite Hf.
  - unfold LoggerV1.startup.
    rewrite (V1_ReadEvents_loop _ _ _ _ _ _ _ Hscan Hloop). simpl snd.
    destruct (V1_logged_text os2
                (LoggerV1.Run (LoggerV1.mkLogger [] [] (N.of_nat (length os1))
                                 (log_text 0 os1))) eq_refl eq_refl)
      as (s' & -> & Hf).
    simpl. by rewrite Hf.
Qed.

Lemma restart_is_transparent_witness :
  ∃ contents,
    loggedOf Earlier [OpPut "x" "42"] = Some contents
    ∧ loggedAfter Earlier contents [OpDelete "x"]
      = loggedOf Earlier ([OpPut "x" "42"] ++ [OpDelete "x"])
    ∧ loggedOf Earlier ([OpPut "x" "42"] ++ [OpDelete "x"])
      = Some (log_text 0 ([OpPut "x" "42"] ++ [OpDelete "x"])).
Proof.
  refine (restart_is_transparent Earlier [OpPut "x" "42"] [OpDelete "x"]
            _ _ _ _).
  - repeat constructor; done.
  - intros _. repeat constructor.
  - by vm_compute.
  - repeat constructor; by vm_compute.
Defined.

(** A replay that goes through the records of the operations [os] and
    stops at the line after them with the error [stop]. *)
Lemma replay_stops_after rev os line rest stop :
  Forall plain_op os → (rev = Earlier → Forall is_put os) →
  N.of_nat (length os) < 2 ^ 64 →
  Forall short_line (log_lines 0 os) →
  all_bytes tame_byte line = true → short_line line →
  (∀ e, ∃ e1, readLoopOf rev [line] (N.of_nat (length os)) e
              = ([], Some stop, N.of_nat (length os), e1)) →
  replayOf rev (log_text 0 os +:+ line +:+ Go.LF +:+ rest)
  = (apply_ops Store.empty os, Some stop).
Proof.
  intros Hos Hput Hlen Hshort Htame Hs Hstop.
  destruct (Go.ScanLines rest) as [toks tooLong] eqn:Hrest.
  assert (Go.ScanLines (log_text 0 os +:+ line +:+ Go.LF +:+ rest)
          = (log_lines 0 os ++ line :: toks, tooLong)) as Hscan.
  { rewrite ScanLines_log_text_then by done.
    rewrite ScanLines_line by done. unfold short_line in Hs.
    destruct (N.leb_spec Go.MaxScanTokenSize (N.of_nat (String.length line)));
      [lia|].
    by rewrite Hrest. }
  destruct (readLoopOf_log_lines rev os Hos Hput 0 zeroEvent)
    as (evs & ls & e & Hloop & Hevs); [lia|done|].
  destruct (readLoopOf_log_lines_last rev os Hos Hput 0 zeroEvent)
    as (evs' & e' & Hloop'); [lia|done|].
  rewrite Hloop, N.add_0_l in Hloop'. simplify_eq.
  destruct (Hstop e') as [e1 Hline].
  pose proof (readLoopOf_app_err rev [line] toks _ _ _ _ _ _ Hline) as Hline'.
  pose proof (readLoopOf_app_ok rev _ (line :: toks) _ _ _ _ _ Hloop) as Hall.
  simpl app in Hline'. rewrite Hline' in Hall. rewrite app_nil_r in Hall.
  destruct (replay_loop rev _ _ _ _ _ _ _ Hscan Hall) as [_ H].
  rewrite H. by rewrite Hevs.
Qed.

(** X10. In the revision with the WaitGroup, a put whose value
    [url.QueryUnescape] rejects, such as a value with a percent sign that
    no two hexadecimal digits follow, is written to the log as it is, and
    a start-up on that log ends with a decoding error at its record: the
    operations logged before it are replayed, the put and whatever was
    logged after it are not. *)
Lemma bad_escape_stops_replay (os : list op) (k v : string) (later : list op) :
  Forall plain_op os →
  N.of_nat (length os) + 1 < 2 ^ 64 →
  Forall short_line (log_lines 0 (os ++ [OpPut k v])) →
  k ≠ EmptyString → all_bytes plain_byte k = true →
  v ≠ EmptyString → all_bytes plain_byte v = true →
  Go.QueryUnescape v = None →
  loggedOf WithWaitGroup (os ++ OpPut k v :: later)
  = Some (log_text 0 (os ++ OpPut k v :: later))
  ∧ replayOf WithWaitGroup (log_text 0 (os ++ OpPut k v :: later))
    = (apply_ops Store.empty os, Some ErrDecode).
Proof.
  intros Hos Hlen Hshort Hk Hkp Hv Hvp Hbad. split; [apply loggedOf_text|].
  rewrite log_lines_app in Hshort by lia.
  apply Forall_app in Hshort as [Hshort Hline]. simpl in Hline.
  apply Forall_cons in Hline as [Hline _].
  rewrite N.add_0_l, (N.mod_small (_ + 1)) in Hline by lia.
  rewrite log_text_app by lia. simpl log_text.
  rewrite N.add_0_l, (N.mod_small (_ + 1)) by lia.
  rewrite record_text_line, !append_assoc.
  apply replay_stops_after; try done; [lia| |].
  - apply record_line_tame_fields; simpl.
    + apply (all_bytes_impl _ _ _ plain_tame Hkp).
    + apply (all_bytes_impl _ _ _ plain_tame Hvp).
  - intros e. eexists. unfold readLoopOf. rewrite readLoop_cons.
    change (mkEvent 0 EventPut k v) with (mkEvent 0 2 k v).
    rewrite Sscanf_record_line; [|lia|done|done|done|done].
    destruct v; [done|]. cbv zeta. simpl fst. simpl Sequence.
    destruct (N.leb_spec (N.of_nat (length os) + 1) (N.of_nat (length os)));
      [lia|].
    simpl Value. by rewrite Hbad.
Qed.

Lemma bad_escape_stops_replay_witness :
  replayOf WithWaitGroup
    (log_text 0 ([OpPut "x" "42"] ++ [OpPut "y" "100%"; OpPut "z" "1"]))
  = (apply_ops Store.empty [OpPut "x" "42"], Some ErrDecode).
Proof.
  refine (proj2 (bad_escape_stops_replay [OpPut "x" "42"] "y" "100%"
                   [OpPut "z" "1"] _ _ _ _ _ _ _ _)).
  - repeat constructor; done.
  - by vm_compute.
  - repeat constructor; by vm_compute.
  - done.
  - reflexivity.
  - done.
  - reflexivity.
  - reflexivity.
Defined.

(** X11. In the earlier revision a delete is written to the log as a record
    with an empty last field, and a start-up on that log ends with a parse
    error at that record: the puts logged before it are replayed, the
    delete and whatever was logged after it are not. *)
Lemma V1_delete_stops_replay (os : list op) (k : string) (later : list op) :
  Forall plain_op os → Forall is_put os →
  N.of_nat (length os) + 1 < 2 ^ 64 →
  Forall short_line (log_lines 0 (os ++ [OpDelete k])) →
  k ≠ EmptyString → all_bytes plain_byte k = true →
  loggedOf Earlier (os ++ OpDelete k :: later)
  = Some (log_text 0 (os ++ OpDelete k :: later))
  ∧ replayOf Earlier (log_text 0 (os ++ OpDelete k :: later))
    = (apply_ops Store.empty os, Some (ErrParse Go.ErrEOF)).
Proof.
  intros Hos Hput Hlen Hshort Hk Hkp. split; [apply loggedOf_text|].
  rewrite log_lines_app in Hshort by lia.
  apply Forall_app in Hshort as [Hshort Hline]. simpl in Hline.
  apply Forall_cons in Hline as [Hline _].
  rewrite N.add_0_l, (N.mod_small (_ + 1)) in Hline by lia.
  rewrite log_text_app by lia. simpl log_text.
  rewrite N.add_0_l, (N.mod_small (_ + 1)) by lia.
  rewrite record_text_line, !append_assoc.
  apply replay_stops_after; try done; [lia| |].
  - apply record_line_tame_fields; simpl; [|done].
    apply (all_bytes_impl _ _ _ plain_tame Hkp).
  - intros e. eexists. unfold readLoopOf. rewrite V1_readLoop_cons.
    change (mkEvent 0 EventDelete k "") with (mkEvent 0 1 k "").
    by rewrite Sscanf_record_line; [|lia|done|done|done|done].
Qed.

Lemma V1_delete_stops_replay_witness :
  replayOf Earlier
    (log_text 0 ([OpPut "x" "42"] ++ [OpDelete "x"; OpPut "z" "1"]))
  = (apply_ops Store.empty [OpPut "x" "42"], Some (ErrParse Go.ErrEOF)).
Proof.
  refine (proj2 (V1_delete_stops_replay [OpPut "x" "42"] "x"
                   [OpPut "z" "1"] _ _ _ _ _ _)).
  - repeat constructor; done.
  - repeat constructor.
  - by vm_compute.
  - repeat constructor; by vm_compute.
  - done.
  - reflexivity.
Defined.

(** ** More of the write path *)

Lemma step_capacity a s s' :
  Logger.step a s = Some s' →
  within_capacity (observe s) → within_capacity (observe s').
Proof.
  unfold within_capacity. destruct s as [[evs errs ls f n] p atts].
  intros H [Hev Herr]. simpl in Hev, Herr.
  destruct a as [[k v|k]|w| |]; simpl in H.
  - unfold Logger.WritePut, Logger.sendEvent in H. simpl in H.
    case_decide; simplify_eq/=. rewrite length_app. simpl.
    unfold Logger.eventsCap in *. lia.
  - unfold Logger.WriteDelete, Logger.sendEvent in H. simpl in H.
    case_decide; simplify_eq/=. rewrite length_app. simpl.
    unfold Logger.eventsCap in *. lia.
  - unfold Logger.writeStep in H. simpl in H.
    destruct p, evs as [|e q]; try done.
    destruct (failed w); simplify_eq/=; lia.
  - unfold Logger.sendStep in H. simpl in H. destruct p; try done.
    case_decide; simplify_eq/=. rewrite length_app. simpl.
    unfold Logger.errorsCap in *. lia.
  - unfold Logger.recvError in H. simpl in H.
    destruct errs as [|err rest]; simplify_eq/=. lia.
Qed.

Lemma V1_step_capacity a s s' :
  LoggerV1.step a s = Some s' →
  within_capacity (observeV1 s) → within_capacity (observeV1 s').
Proof.
  unfold within_capacity. destruct s as [[evs errs ls f] p atts].
  intros H [Hev Herr]. simpl in Hev, Herr.
  destruct a as [[k v|k]|w| |]; simpl in H.
  - unfold LoggerV1.WritePut, LoggerV1.sendEvent in H. simpl in H.
    case_decide; simplify_eq/=. rewrite length_app. simpl.
    unfold LoggerV1.eventsCap in *. lia.
  - unfold LoggerV1.WriteDelete, LoggerV1.sendEvent in H. simpl in H.
    case_decide; simplify_eq/=. rewrite length_app. simpl.
    unfold LoggerV1.eventsCap in *. lia.
  - unfold LoggerV1.writeStep in H. simpl in H.
    destruct p, evs as [|e q]; try done. simplify_eq/=; lia.
  - unfold LoggerV1.sendStep in H. simpl in H. destruct p; try done.
    case_decide; simplify_eq/=. rewrite length_app. simpl.
    unfold LoggerV1.errorsCap in *. lia.
  - unfold LoggerV1.recvError in H. simpl in H.
    destruct errs as [|err rest]; simplify_eq/=. lia.
Qed.

Lemma run_capacity sched :
  ∀ s s', Logger.run sched s = Some s' →
          within_capacity (observe s) → within_capacity (observe s').
Proof.
  induction sched as [|a sched IH]; intros s s' H Hs; simpl in H.
  - by simplify_eq.
  - destruct (Logger.step a s) as [s1|] eqn:Hstep; [|done]. csimpl in H.
    eauto using step_capacity.
Qed.

Lemma V1_run_capacity sched :
  ∀ s s', LoggerV1.run sched s = Some s' →
          within_capacity (observeV1 s) → within_capacity (observeV1 s').
Proof.
  induction sched as [|a sched IH]; intros s s' H Hs; simpl in H.
  - by simplify_eq.
  - destruct (LoggerV1.step a s) as [s1|] eqn:Hstep; [|done]. csimpl in H.
    eauto using V1_step_capacity.
Qed.

(** X15. Whatever the handlers, the worker and the receivers of errors do
    after [Run], in either revision: the event channel never holds more
    than 16 events and the error channel never more than one error. *)
Lemma channels_within_capacity (rev : revision) (lastSeq : N)
    (contents : string) (sched : list action) (o : observed) :
  runFrom rev lastSeq contents sched = Some o → within_capacity o.
Proof.
  destruct rev; simpl; intros H.
  - destruct (Logger.run _ _) as [s|] eqn:Hrun; simplify_eq/=.
    eapply run_capacity; [done|]. unfold within_capacity. simpl. lia.
  - destruct (LoggerV1.run _ _) as [s|] eqn:Hrun; simplify_eq/=.
    eapply V1_run_capacity; [done|]. unfold within_capacity. simpl. lia.
Qed.

Lemma channels_within_capacity_witness :
  ∃ o, runFrom WithWaitGroup 0 EmptyString sched_two_failures = Some o
       ∧ within_capacity o.
Proof.
  eexists. split; [vm_compute; reflexivity|].
  refine (channels_within_capacity WithWaitGroup 0 EmptyString
            sched_two_failures _ _).
  vm_compute; reflexivity.
Defined.

Lemma written_extends atts :
  ∀ file, ∃ more, written file atts = file +:+ more.
Proof.
  induction atts as [|a atts IH]; intros file.
  - exists EmptyString. simpl. by rewrite append_nil_r.
  - change (written file (a :: atts))
      with (written (write_file file (record_text (a_seq a) (a_event a))
                       (a_result a)) atts).
    destruct (IH (write_file file (record_text (a_seq a) (a_event a))
                    (a_result a))) as [more ->].
    destruct (a_result a); simpl; rewrite append_assoc; eauto.
Qed.

(** X16. The logger only appends: after any schedule, in either revision, the
    file starts with what it held when [Run] was called, failed writes
    included. *)
Lemma file_only_grows (rev : revision) (lastSeq : N) (contents : string)
    (sched : list action) (o : observed) :
  runFrom rev lastSeq contents sched = Some o →
  ∃ more, o_file o = contents +:+ more.
Proof.
  intros H. apply runFrom_follows in H as (_ & _ & _ & _ & ->).
  apply written_extends.
Qed.

Lemma file_only_grows_witness :
  ∃ o, runFrom Earlier 7 log_put_delete sched_three_writes = Some o
       ∧ ∃ more, o_file o = log_put_delete +:+ more.
Proof.
  eexists. split; [vm_compute; reflexivity|].
  refine (file_only_grows Earlier 7 log_put_delete sched_three_writes _ _).
  vm_compute; reflexivity.
Defined.

Lemma follows_no_pass o o' enq :
  follows o o' enq [] →
  o_events o' = o_events o ++ enq ∧ o_file o' = o_file o.
Proof. by intros (_ & H & _ & _ & ->). Qed.

Lemma V1_returned_takes_nothing (s s' : LoggerV1.armed)
    (sched : list action) :
  LoggerV1.pc s = Returned →
  within_capacity (observeV1 s) →
  LoggerV1.run sched s = Some s' →
  (length (LoggerV1.events (LoggerV1.log s)) + length (intents sched) ≤ 16)%nat
  ∧ LoggerV1.events (LoggerV1.log s')
    = LoggerV1.events (LoggerV1.log s) ++ intents sched
  ∧ LoggerV1.file (LoggerV1.log s') = LoggerV1.file (LoggerV1.log s).
Proof.
  intros Hpc Hcap Hrun.
  destruct (V1_worker_returned _ _ _ Hpc Hrun) as [Hatt _].
  destruct (V1_run_follows _ _ _ Hrun) as [new Hf].
  assert (new = []) as ->.
  { destruct Hf as (Ha & _). simpl in Ha. rewrite Hatt in Ha.
    apply (app_inv_head (LoggerV1.attempts s)). by rewrite app_nil_r. }
  apply follows_no_pass in Hf as [Hev Hfile]. simpl in Hev, Hfile.
  split_and!; [|done|done].
  pose proof (V1_run_capacity _ _ _ Hrun Hcap) as [Hc _]. simpl in Hc.
  rewrite Hev, length_app in Hc. done.
Qed.

(** X17. In the earlier revision one failed write ends the logging: the
    worker sends the error and returns, and from then on, whatever the
    handlers do, nothing more is written to the file, the events handed
    over stay in the channel, and no more of them are taken than the
    channel has room for, 16 with those that wait there already. *)
Lemma V1_failed_write_ends_logging (s : LoggerV1.armed) (n : nat)
    (e : Event) (q : list Event) :
  LoggerV1.pc s = AtRange →
  LoggerV1.events (LoggerV1.log s) = e :: q →
  LoggerV1.errors (LoggerV1.log s) = [] →
  (length q ≤ 16)%nat →
  ∃ s', LoggerV1.run [Write (WriteFail n); SendErr] s = Some s'
        ∧ LoggerV1.pc s' = Returned
        ∧ LoggerV1.errors (LoggerV1.log s') = [ErrWrite]
        ∧ ∀ sched s'',
            LoggerV1.run sched s' = Some s'' →
            LoggerV1.file (LoggerV1.log s'') = LoggerV1.file (LoggerV1.log s')
            ∧ LoggerV1.attempts s'' = LoggerV1.attempts s'
            ∧ LoggerV1.events (LoggerV1.log s'') = q ++ intents sched
            ∧ (length q + length (intents sched) ≤ 16)%nat.
Proof.
  intros Hpc Hev Herr Hq.
  destruct (V1_worker_returns_after_failure s n e q Hpc Hev Herr)
    as (s' & Hrun & Hpc' & Herr' & Hev' & Hatt).
  exists s'. split_and!; [done|done|done|].
  intros sched s'' Hrun'.
  assert (within_capacity (observeV1 s')) as Hcap.
  { unfold within_capacity. simpl. rewrite Hev', Herr'. simpl. lia. }
  destruct (V1_returned_takes_nothing _ _ _ Hpc' Hcap Hrun')
    as (Hroom & Hevs & Hfile).
  rewrite Hev' in Hroom, Hevs. split_and!; eauto.
Qed.

Lemma V1_failed_write_ends_logging_witness :
  ∃ s', LoggerV1.run [Write (WriteFail 0); SendErr]
          (LoggerV1.mkArmed (LoggerV1.mkLogger [intent (OpPut "a" "1")] [] 0 "")
             AtRange [])
        = Some s'
        ∧ LoggerV1.pc s' = Returned.
Proof.
  destruct (V1_failed_write_ends_logging
              (LoggerV1.mkArmed
                 (LoggerV1.mkLogger [intent (OpPut "a" "1")] [] 0 "")
                 AtRange [])
              0 (intent (OpPut "a" "1")) [] eq_refl eq_refl eq_refl)
    as (s' & Hrun & Hpc & _).
  - simpl. lia.
  - by exists s'.
Defined.

(** ** The WaitGroup *)

Lemma wg_is_pending l sched s :
  Logger.wg l = 0%Z →
  Logger.run sched (Logger.Run l) = Some s →
  Logger.wg (Logger.log s) = Logger.pending s.
Proof.
  intros Hwg Hrun. apply wg_counts_pending in Hrun.
  unfold Logger.pending in Hrun at 2. simpl in Hrun. lia.
Qed.

(** X18. On a logger whose WaitGroup stood at zero when [Run] was called,
    [Wait] returns exactly when the worker has made a pass for every event
    the handlers have handed over and stands at the head of its loop: it
    then leaves the logger as it was, and until then the caller waits. *)
Lemma Wait_returns_when_all_written (l : Logger.FileTransactionLogger)
    (sched : list action) (s : Logger.armed) :
  Logger.wg l = 0%Z →
  Logger.run sched (Logger.Run l) = Some s →
  (Logger.Wait s = Some s
   ↔ map a_event (Logger.attempts s) = intents sched
     ∧ Logger.pc s = AtRange).
Proof.
  intros Hwg Hrun.
  pose proof (wg_is_pending _ _ _ Hwg Hrun) as Hp.
  pose proof (worker_never_returns _ _ _ Hrun) as Hret.
  destruct (run_follows _ _ _ Hrun) as (new & (Ha & Hev & _) & _).
  simpl in Ha, Hev. subst new.
  unfold Logger.Wait, Logger.pending in *.
  split.
  - case_decide as Hz; [intros _|done]. rewrite Hp in Hz.
    destruct (Logger.events (Logger.log s)) as [|e q] eqn:He.
    + rewrite app_nil_r in Hev. split; [done|].
      destruct (Logger.pc s); [done|lia|done].
    + simpl length in Hz. destruct (Logger.pc s); lia.
  - intros [Hall Hpc]. rewrite <- Hall in Hev.
    apply (f_equal length) in Hev. rewrite length_app in Hev.
    case_decide as Hz; [done|]. exfalso. apply Hz. rewrite Hp, Hpc.
    destruct (Logger.events (Logger.log s)); simpl in *; lia.
Qed.

Lemma Wait_returns_when_all_written_witness :
  ∃ s, Logger.run sched_three_writes Logger.fresh = Some s
       ∧ Logger.Wait s = Some s.
Proof.
  eexists. split; [vm_compute; reflexivity|].
  refine (proj2 (Wait_returns_when_all_written
                   (Logger.MakeFileTransactionLogger EmptyString)
                   sched_three_writes _ eq_refl _) _).
  - vm_compute; reflexivity.
  - split; vm_compute; reflexivity.
Defined.

(** X19. With nobody receiving from [Err()]: once the worker stands at the
    send of an error and the error channel is full, [Wait] does not
    return, whatever else happens. *)
Lemma Wait_blocked_without_receiver (l : Logger.FileTransactionLogger)
    (sched1 sched2 : list action) (s s' : Logger.armed) :
  Logger.wg l = 0%Z →
  Logger.run sched1 (Logger.Run l) = Some s →
  Logger.pc s = AtSend →
  length (Logger.errors (Logger.log s)) = Logger.errorsCap →
  Forall (λ a, a ≠ RecvErr) sched2 →
  Logger.run sched2 s = Some s' →
  Logger.Wait s' = None.
Proof.
  intros Hwg Hrun1 Hpc Herr Hsched Hrun2.
  destruct (worker_blocked _ _ _ Hpc Herr Hsched Hrun2) as [_ Hpc'].
  assert (Logger.run (sched1 ++ sched2) (Logger.Run l) = Some s') as Hrun.
  { rewrite run_app, Hrun1. done. }
  pose proof (wg_is_pending _ _ _ Hwg Hrun) as Hp.
  unfold Logger.Wait. case_decide as Hz; [|done].
  rewrite Hp in Hz. unfold Logger.pending in Hz. rewrite Hpc' in Hz. lia.
Qed.

Lemma Wait_blocked_without_receiver_witness :
  ∃ s s',
    Logger.run sched_two_failures Logger.fresh = Some s
    ∧ Logger.run [Client (OpPut "d" "4")] s = Some s'
    ∧ Logger.Wait s' = None.
Proof.
  eexists. eexists. split; [vm_compute; reflexivity|].
  split; [vm_compute; reflexivity|].
  refine (Wait_blocked_without_receiver
            (Logger.MakeFileTransactionLogger EmptyString)
            sched_two_failures [Client (OpPut "d" "4")] _ _
            eq_refl _ _ _ _ _).
  - vm_compute; reflexivity.
  - reflexivity.
  - reflexivity.
  - repeat constructor; discriminate.
  - vm_compute; reflexivity.
Defined.

(** ** The handlers *)

(** X20. A PUT with a readable body and a DELETE change the store before
    anything is handed to the logger: a GET of the key afterwards replies
    with the value of the PUT, or with 404 after the DELETE, whether the
    handler has replied, waits at the logger or has panicked. *)
Lemma get_sees_request (r : Server.request) (o : op) (g : Server.globals) :
  Server.op_of r = Some o →
  Server.handle (Server.GET (op_key o)) (snd (Server.handle r g))
  = (match o with
     | OpPut _ v => Server.Replied 200 v
     | OpDelete _ => Server.Replied 404 ("no such key" +:+ Go.LF)
     end,
     snd (Server.handle r g)).
Proof.
  destruct g as [[m] t], r as [k [v|msg]|k|k]; intros Ho; simplify_eq/=.
  - unfold Server.KeyValuePutHandler, Server.putStore, Server.putLog. simpl.
    destruct t as [s|]; simpl;
      [destruct (Logger.WritePut k v (Logger.log s)); simpl|];
      unfold Server.KeyValueGetHandler, Store.Get; simpl;
      by rewrite lookup_insert_eq.
  - unfold Server.KeyValueDeleteHandler. simpl.
    destruct t as [s|]; simpl;
      [destruct (Logger.WriteDelete k (Logger.log s)); simpl|];
      unfold Server.KeyValueGetHandler, Store.Get; simpl;
      by rewrite lookup_delete_eq.
Qed.

Lemma get_sees_request_witness :
  Server.handle (Server.GET "x")
    (snd (Server.handle (Server.PUT "x" (inl "42"))
            (Server.mkGlobals Store.empty None)))
  = (Server.Replied 200 "42",
     snd (Server.handle (Server.PUT "x" (inl "42"))
            (Server.mkGlobals Store.empty None))).
Proof.
  exact (get_sees_request (Server.PUT "x" (inl "42")) (OpPut "x" "42")
           (Server.mkGlobals Store.empty None) eq_refl).
Defined.

Lemma step_no_client_keeps_events a s s' :
  no_client a → Logger.step a s = Some s' →
  map a_event (Logger.attempts s') ++ Logger.events (Logger.log s')
  = map a_event (Logger.attempts s) ++ Logger.events (Logger.log s).
Proof.
  intros Ha Hstep.
  destruct (step_follows _ _ _ Hstep) as (new & (Hatt & Hev & _) & _).
  simpl in Hatt, Hev. rewrite Hatt, map_app, <- app_assoc, Hev.
  destruct a; [done|..]; simpl; by rewrite app_nil_r.
Qed.

Lemma serve_step a ts g s :
  no_client a → Server.transact g = Some s →
  Server.serve (Server.Step a :: ts) g
  = match Logger.step a s with
    | Some s1 => Server.serve ts (Server.mkGlobals (Server.kvs g) (Some s1))
    | None => None
    end.
Proof.
  intros Ha Hs.
  destruct a as [o|w| |]; [done|..]; simpl; rewrite Hs; csimpl.
  - by destruct (Logger.writeStep w s).
  - by destruct (Logger.sendStep s).
  - by destruct (Logger.recvError (Logger.log s)).
Qed.

(** X21. With the logger in place and the requests handled one after the
    other, none of them left waiting at the logger: the store is what the
    operations asked for make of it, and the logger has been handed one
    event for each of them, in the same order, each either written by the
    worker or still in the channel. *)
Lemma served_store_mirrors_log (ts : list Server.turn) :
  ∀ (g0 g : Server.globals) (s0 : Logger.armed) (outs : list Server.outcome),
    Server.transact g0 = Some s0 →
    Server.serve ts g0 = Some (outs, g) →
    Forall (λ out, out ≠ Server.Waiting) outs →
    Server.kvs g = apply_ops (Server.kvs g0) (Server.asked ts)
    ∧ Forall (λ out, out ≠ Server.Panicked) outs
    ∧ ∃ s, Server.transact g = Some s
           ∧ map a_event (Logger.attempts s) ++ Logger.events (Logger.log s)
             = (map a_event (Logger.attempts s0)
                  ++ Logger.events (Logger.log s0))
                 ++ map intent (Server.asked ts).
Proof.
  induction ts as [|t ts IH]; intros g0 g s0 outs Ht Hserve Houts.
  - simpl in Hserve. simplify_eq. split_and!; [done|done|].
    exists s0. by rewrite app_nil_r.
  - destruct t as [r|a].
    + assert (Server.asked (Server.Handle r :: ts)
              = option_list (Server.op_of r) ++ Server.asked ts) as ->.
      { unfold Server.asked. simpl. by destruct (Server.op_of r). }
      simpl in Hserve.
      destruct (Server.handle r g0) as [out g1] eqn:Hh.
      destruct (Server.serve ts g1) as [[outs' g']|] eqn:Hs;
        csimpl in Hserve; simplify_eq.
      apply Forall_cons in Houts as [Hout Houts].
      assert (out ≠ Server.Panicked
              ∧ ∃ s1, Server.transact g1 = Some s1
                ∧ Server.kvs g1
                  = apply_ops (Server.kvs g0)
                      (option_list (Server.op_of r))
                ∧ map a_event (Logger.attempts s1)
                    ++ Logger.events (Logger.log s1)
                  = (map a_event (Logger.attempts s0)
                       ++ Logger.events (Logger.log s0))
                      ++ map intent (option_list (Server.op_of r)))
        as (Hnp & s1 & Ht1 & Hk1 & Hl1).
      { destruct g0 as [k0 t0]. simpl in Ht. subst t0.
        destruct r as [k [v|msg]|k|k]; simpl in Hh.
        - unfold Server.KeyValuePutHandler, Server.putStore, Server.putLog
            in Hh. simpl in Hh.
          unfold Logger.WritePut, Logger.sendEvent in Hh.
          case_decide; simplify_eq/=.
          split; [done|]. eexists. split; [done|]. split; [done|].
          simpl. by rewrite !app_assoc.
        - unfold Server.KeyValuePutHandler in Hh. simplify_eq/=.
          split; [done|]. exists s0. by rewrite app_nil_r.
        - unfold Server.KeyValueGetHandler, Store.Get in Hh. simpl in Hh.
          destruct (Store.M k0 !! k); simplify_eq/=;
            (split; [done|]); exists s0; by rewrite app_nil_r.
        - unfold Server.KeyValueDeleteHandler in Hh. simpl in Hh.
          unfold Logger.WriteDelete, Logger.sendEvent in Hh.
          case_decide; simplify_eq/=.
          split; [done|]. eexists. split; [done|]. split; [done|].
          simpl. by rewrite !app_assoc. }
      destruct (IH _ _ _ _ Ht1 Hs Houts) as (Hk & Hp & s & Hts & Hl).
      split_and!.
      * rewrite Hk, Hk1. unfold apply_ops. by rewrite fold_left_app.
      * by constructor.
      * exists s. split; [done|]. rewrite Hl, Hl1, map_app.
        by rewrite !app_assoc.
    + assert (no_client a ∧ ∃ s1, Logger.step a s0 = Some s1
              ∧ Server.serve ts (Server.mkGlobals (Server.kvs g0) (Some s1))
                = Some (outs, g)) as (Ha & s1 & Hstep & Hs).
      { destruct a as [o|w| |]; [done|..];
          rewrite (serve_step _ _ _ s0) in Hserve by done;
          (destruct (Logger.step _ s0) as [s1|] eqn:Hstep; [|done]);
          (split; [done|]); by exists s1. }
      destruct (IH (Server.mkGlobals (Server.kvs g0) (Some s1)) g s1 outs
                  eq_refl Hs Houts) as (Hk & Hp & s & Hts & Hl).
      simpl in Hk.
      split_and!; [done|done|]. exists s. split; [done|].
      rewrite Hl. by rewrite (step_no_client_keeps_events _ _ _ Ha Hstep).
Qed.

Lemma served_store_mirrors_log_witness :
  ∃ outs g,
    Server.serve
      [Server.Handle (Server.PUT "x" (inl "42")); Server.Step (Write WriteOk);
       Server.Handle (Server.GET "x"); Server.Handle (Server.DELETE "x")]
      (Server.mkGlobals Store.empty (Some Logger.fresh))
    = Some (outs, g)
    ∧ Server.kvs g
      = apply_ops Store.empty [OpPut "x" "42"; OpDelete "x"].
Proof.
  eexists. eexists. split; [vm_compute; reflexivity|].
  refine (proj1 (served_store_mirrors_log
                   [Server.Handle (Server.PUT "x" (inl "42"));
                    Server.Step (Write WriteOk);
                    Server.Handle (Server.GET "x");
                    Server.Handle (Server.DELETE "x")]
                   (Server.mkGlobals Store.empty (Some Logger.fresh))
                   _ Logger.fresh _ eq_refl _ _)).
  - vm_compute; reflexivity.
  - repeat constructor; discriminate.
Defined.

Lemma serve_without_logger rs :
  ∀ g, Server.transact g = None →
  ∃ outs g',
    Server.serve (map Server.Handle rs) g = Some (outs, g')
    ∧ Server.transact g' = None
    ∧ Server.kvs g' = apply_ops (Server.kvs g) (omap Server.op_of rs)
    ∧ Forall2 (λ r out, match Server.op_of r with
                        | Some _ => out = Server.Panicked
                        | None => out ≠ Server.Panicked
                        end) rs outs.
Proof.
  induction rs as [|r rs IH]; intros g Hg.
  - exists [], g. by split_and!.
  - assert (∃ out g1,
      Server.handle r g = (out, g1)
      ∧ Server.transact g1 = None
      ∧ Server.kvs g1
        = apply_ops (Server.kvs g) (option_list (Server.op_of r))
      ∧ match Server.op_of r with
        | Some _ => out = Server.Panicked
        | None => out ≠ Server.Panicked
        end) as (out & g1 & Hh & Ht1 & Hk1 & Hout).
    { destruct g as [k0 t0]. simpl in Hg. subst t0.
      destruct r as [k [v|msg]|k|k]; simpl.
      - by eexists _, _.
      - by eexists _, _.
      - unfold Server.KeyValueGetHandler, Store.Get. simpl.
        destruct (Store.M k0 !! k); by eexists _, _.
      - by eexists _, _. }
    destruct (IH g1 Ht1) as (outs & g' & Hs & Ht & Hk & Hall).
    exists (out :: outs), g'. simpl. rewrite Hh, Hs. csimpl.
    split_and!; [done|done| |by constructor].
    rewrite Hk, Hk1. unfold apply_ops. rewrite <- fold_left_app.
    by destruct (Server.op_of r).
Qed.

(** X22. [initTransactionLogger] leaves the global [transact] as it was, and
    with that global nil, as it is when [main] starts to serve: every PUT
    with a readable body and every DELETE changes the store and then
    panics, so that nothing is handed to the logger that was armed; the
    other requests are answered. *)
Lemma unset_logger_panics (lost : bool) (contents : string)
    (g0 g1 : Server.globals) (err : option error) (s : Logger.armed)
    (rs : list Server.request) :
  Server.transact g0 = None →
  Server.initTransactionLogger lost contents g0 = (err, g1, s) →
  ∃ outs g,
    Server.serve (map Server.Handle rs) g1 = Some (outs, g)
    ∧ Server.transact g = None
    ∧ Server.kvs g = apply_ops (Server.kvs g1) (omap Server.op_of rs)
    ∧ Forall2 (λ r out, match Server.op_of r with
                        | Some _ => out = Server.Panicked
                        | None => out ≠ Server.Panicked
                        end) rs outs.
Proof.
  intros Hg Hinit. apply serve_without_logger.
  unfold Server.initTransactionLogger in Hinit.
  destruct (Logger.startup (Server.kvs g0) contents) as [[k e] s'].
  by simplify_eq/=.
Qed.

Lemma unset_logger_panics_witness :
  ∃ outs g,
    Server.serve
      (map Server.Handle [Server.PUT "y" (inl "7"); Server.GET "y"])
      (Server.initTransactionLogger false log_with_gap
         (Server.mkGlobals Store.empty None)).1.2
    = Some (outs, g)
    ∧ Server.transact g = None.
Proof.
  destruct (unset_logger_panics false log_with_gap
              (Server.mkGlobals Store.empty None)
              (Server.initTransactionLogger false log_with_gap
                 (Server.mkGlobals Store.empty None)).1.2
              (Server.initTransactionLogger false log_with_gap
                 (Server.mkGlobals Store.empty None)).1.1
              (Server.initTransactionLogger false log_with_gap
                 (Server.mkGlobals Store.empty None)).2
              [Server.PUT "y" (inl "7"); Server.GET "y"] eq_refl)
    as (outs & g & Hs & Ht & _).
  - vm_compute; reflexivity.
  - by exists outs, g.
Defined.

(** X23. Two PUTs of one key whose handlers take turns between the call of
    [kvs.Put] and the call of [transact.WritePut]: the store keeps the
    value that was put last, the logger is handed the two events in the
    other order, so that the events, applied in the order of the log,
    leave the other value. *)
Lemma interleaved_puts_diverge (g : Server.globals) (s : Logger.armed)
    (k v1 v2 : string) :
  Server.transact g = Some s →
  (length (Logger.events (Logger.log s)) + 2 ≤ Logger.eventsCap)%nat →
  ∃ g3 g4 s4,
    Server.putLog k v2 (Server.putStore k v2 (Server.putStore k v1 g).2).2
    = (Server.Replied Server.StatusCreated EmptyString, g3)
    ∧ Server.putLog k v1 g3
      = (Server.Replied Server.StatusCreated EmptyString, g4)
    ∧ Server.transact g4 = Some s4
    ∧ Logger.events (Logger.log s4)
      = Logger.events (Logger.log s)
          ++ [intent (OpPut k v2); intent (OpPut k v1)]
    ∧ Store.M (Server.kvs g4) !! k = Some v2
    ∧ Store.M (applyEvents (Server.kvs g)
                 [intent (OpPut k v2); intent (OpPut k v1)]) !! k
      = Some v1.
Proof.
  destruct g as [[m] t], s as [[evs errs ls f n] p atts]. simpl.
  intros -> Hroom. unfold Logger.eventsCap in Hroom.
  unfold Server.putLog, Server.putStore, Logger.WritePut, Logger.sendEvent.
  simpl. unfold Logger.eventsCap.
  case_decide; [|lia]. simpl.
  eexists _, _, _. split; [reflexivity|]. simpl.
  rewrite length_app. simpl. case_decide; [|lia].
  split_and!; try done.
  - simpl. by rewrite <- app_assoc.
  - simpl. by rewrite lookup_insert_eq.
  - unfold applyEvents, applyEvent. simpl. by rewrite lookup_insert_eq.
Qed.

Lemma interleaved_puts_diverge_witness :
  ∃ g4,
    Store.M (Server.kvs g4) !! ("x" : string) = Some ("2" : string)
    ∧ Store.M (applyEvents Store.empty
                 [intent (OpPut "x" "2"); intent (OpPut "x" "1")])
        !! ("x" : string)
      = Some ("1" : string).
Proof.
  destruct (interleaved_puts_diverge
              (Server.mkGlobals Store.empty (Some Logger.fresh)) Logger.fresh
              "x" "1" "2" eq_refl)
    as (g3 & g4 & s4 & _ & _ & _ & _ & Hk & Hl).
  - simpl. unfold Logger.eventsCap. lia.
  - by exists g4.
Defined.
